(** * ec-debugger: the log scanners and the correlator

    A shallow embedding of the extraction scripts of the repository
    ([extract_violations.py], [extract_image_refs.py],
    [extract_components.py], [extract_policy.py]) and of
    [match_component_to_violation] from [auto_resolve.py].

    Python strings are sequences of Unicode code points: a character is a
    code point ([N]) and a string is a list of them.  Every extractor
    reads its file with [readlines()] and then works on the list of
    lines, so the functions below take that list. *)

From Stdlib Require Import NArith ZArith Ascii String PrimFloat DecimalString.
From stdpp Require Import base decidable option list gmap sorting.

Local Open Scope N_scope.
#[local] Set Warnings "-register-all".
#[local] Set Warnings "-abstract-large-number".

(** ** Python strings *)

Module Py.

Definition char := N.
Definition str := list char.

(** An ASCII literal as a Python string. *)
Definition lit (s : string) : str :=
  map N_of_ascii (list_ascii_of_string s).

Definition NL : char := 10.

(** [str.isspace] on one character, which is also what [\s] matches in a
    [str] pattern of [re]. *)
Definition isspace (c : char) : bool :=
  ((9 <=? c) && (c <=? 13)) || ((28 <=? c) && (c <=? 32))
  || (c =? 133) || (c =? 160) || (c =? 5760)
  || ((8192 <=? c) && (c <=? 8202))
  || (c =? 8232) || (c =? 8233) || (c =? 8239) || (c =? 8287)
  || (c =? 12288).

Fixpoint lstrip (s : str) : str :=
  match s with
  | [] => []
  | c :: s' => if isspace c then lstrip s' else s
  end.

Fixpoint rstrip (s : str) : str :=
  match s with
  | [] => []
  | c :: s' =>
      match rstrip s' with
      | [] => if isspace c then [] else [c]
      | r => c :: r
      end
  end.

(** [s.strip()] *)
Definition strip (s : str) : str := rstrip (lstrip s).

(** Truth value of a string: [not s] is [is_empty s]. *)
Definition is_empty (s : str) : bool :=
  match s with [] => true | _ => false end.

(** [s.startswith(p)] *)
Fixpoint startswith (s p : str) : bool :=
  match p, s with
  | [], _ => true
  | _ :: _, [] => false
  | a :: p', c :: s' => (c =? a) && startswith s' p'
  end.

(** [s.endswith(p)] *)
Definition endswith (s p : str) : bool := startswith (rev s) (rev p).

(** [sub in s] *)
Fixpoint contains (s sub : str) : bool :=
  startswith s sub ||
  match s with
  | [] => false
  | _ :: s' => contains s' sub
  end.

(** [s.replace(old, new)] for a non-empty [old]: the occurrences of [old]
    are found from the left and do not overlap; [skip] counts the
    characters of the occurrence being passed over. *)
Fixpoint replace_from (old new : str) (skip : nat) (s : str) : str :=
  match s with
  | [] => []
  | c :: s' =>
      match skip with
      | S k => replace_from old new k s'
      | O =>
          if startswith s old
          then new ++ replace_from old new (length old - 1)%nat s'
          else c :: replace_from old new 0 s'
      end
  end.

Definition replace (s old new : str) : str := replace_from old new 0 s.

(** [s.split(sep)] for a non-empty [sep]; [cur] is the piece being read,
    reversed. *)
Fixpoint split_from (sep : str) (skip : nat) (cur : str) (s : str)
  : list str :=
  match s with
  | [] => [rev cur]
  | c :: s' =>
      match skip with
      | S k => split_from sep k cur s'
      | O =>
          if startswith s sep
          then rev cur :: split_from sep (length sep - 1)%nat [] s'
          else split_from sep 0 (c :: cur) s'
      end
  end.

Definition split (s sep : str) : list str := split_from sep 0 [] s.

(** [pieces[0]] and [pieces[-1]] of the result of a split, which is never
    empty. *)
Definition first_piece (l : list str) : str := hd [] l.
Definition last_piece (l : list str) : str := List.last l [].

(** [sep.join(l)] *)
Fixpoint join (sep : str) (l : list str) : str :=
  match l with
  | [] => []
  | [x] => x
  | x :: r => x ++ sep ++ join sep r
  end.

(** [s.count(c)] for a one-character [c]. *)
Fixpoint count (s : str) (c : char) : Z :=
  match s with
  | [] => 0%Z
  | x :: s' => ((if (x =? c)%N then 1 else 0) + count s' c)%Z
  end.

End Py.

Import Py.

(** ** The regular expression of [parse_violation_block] *)

Module Re.

(** [p+], greedy: the longest run of characters of the class [p] is tried
    first and given back one character at a time while the rest of the
    pattern, the continuation [k], fails.  [k] receives the text the item
    has consumed and the text that is left. *)
Fixpoint plus {A} (p : char -> bool) (acc s : str)
  (k : str -> str -> option A) : option A :=
  match s with
  | [] => None
  | c :: s' =>
      if p c then
        match plus p (acc ++ [c]) s' k with
        | Some r => Some r
        | None => k (acc ++ [c]) s'
        end
      else None
  end.

(** A literal: the text must start with it. *)
Fixpoint literal {A} (l s : str) (k : str -> option A) : option A :=
  match l with
  | [] => k s
  | a :: l' =>
      match s with
      | c :: s' => if c =? a then literal l' s' k else None
      | [] => None
      end
  end.

(** [.] without DOTALL: any character but the newline. *)
Definition dot (c : char) : bool := negb (c =? NL).

(** The three characters the pattern in the source starts with
    (U+00E2, U+0153, U+2022). *)
Definition sigil : str := [226; 339; 8226].

(** [re.match(r'<sigil>\s+\[Violation\]\s+(.+)', line)]: [None] when the
    line does not match, otherwise [group(1)]. *)
Definition violation_match (line : str) : option str :=
  literal sigil line (fun s1 =>
  plus isspace [] s1 (fun _ s2 =>
  literal (lit "[Violation]") s2 (fun s3 =>
  plus isspace [] s3 (fun _ s4 =>
  plus dot [] s4 (fun g _ => Some g))))).

End Re.

Import Re.

(** ** extract_violations.py *)

Module Violations.

(** The six keys of the violation dictionary that a label line can set. *)
Inductive Field :=
  | FImageRef | FReason | FTerm | FTitle | FDescription | FSolution.

#[global] Instance Field_eq_dec : EqDecision Field.
Proof. solve_decision. Defined.

(** The dictionary [violation] of the source: its seven keys are fixed
    when it is created, so it is a record; [None] is Python's [None]. *)
Record Violation := {
  rule : str;
  image_ref : option str;
  reason : option str;
  term : option str;
  title : option str;
  description : option str;
  solution : option str;
}.

(** [violation[f]] *)
Definition get_field (f : Field) (v : Violation) : option str :=
  match f with
  | FImageRef => image_ref v
  | FReason => reason v
  | FTerm => term v
  | FTitle => title v
  | FDescription => description v
  | FSolution => solution v
  end.

(** [violation[f] = x] *)
Definition set_field (f : Field) (x : str) (v : Violation) : Violation :=
  match f with
  | FImageRef =>
      {| rule := rule v; image_ref := Some x; reason := reason v;
         term := term v; title := title v; description := description v;
         solution := solution v |}
  | FReason =>
      {| rule := rule v; image_ref := image_ref v; reason := Some x;
         term := term v; title := title v; description := description v;
         solution := solution v |}
  | FTerm =>
      {| rule := rule v; image_ref := image_ref v; reason := reason v;
         term := Some x; title := title v; description := description v;
         solution := solution v |}
  | FTitle =>
      {| rule := rule v; image_ref := image_ref v; reason := reason v;
         term := term v; title := Some x; description := description v;
         solution := solution v |}
  | FDescription =>
      {| rule := rule v; image_ref := image_ref v; reason := reason v;
         term := term v; title := title v; description := Some x;
         solution := solution v |}
  | FSolution =>
      {| rule := rule v; image_ref := image_ref v; reason := reason v;
         term := term v; title := title v; description := description v;
         solution := Some x |}
  end.

(** The dictionary as created at a violation-start line. *)
Definition new_violation (r : str) : Violation :=
  {| rule := r; image_ref := None; reason := None; term := None;
     title := None; description := None; solution := None |}.

(** The label that opens a field. *)
Definition label (f : Field) : str :=
  match f with
  | FImageRef => lit "ImageRef:"
  | FReason => lit "Reason:"
  | FTerm => lit "Term:"
  | FTitle => lit "Title:"
  | FDescription => lit "Description:"
  | FSolution => lit "Solution:"
  end.

(** The [if]/[elif] chain over [line.startswith(...)], in the order of the
    source: the field whose branch is taken, [None] for the final [else]. *)
Definition classify (line : str) : option Field :=
  if startswith line (label FImageRef) then Some FImageRef
  else if startswith line (label FReason) then Some FReason
  else if startswith line (label FTerm) then Some FTerm
  else if startswith line (label FTitle) then Some FTitle
  else if startswith line (label FDescription) then Some FDescription
  else if startswith line (label FSolution) then Some FSolution
  else None.

(** [line.replace('<label>', '').strip()]: the text a label line starts
    the buffer of its field with. *)
Definition label_text (f : Field) (line : str) : str :=
  strip (replace line (label f) []).

(** The variables of the loop of [parse_violation_block]. *)
Record State := {
  violation : Violation;
  current_field : option Field;
  current_value : list str;
}.

(** ['\n'.join(current_value).strip()] *)
Definition joined (cv : list str) : str := strip (join [NL] cv).

(** [if current_field and current_value:
       violation[current_field] = '\n'.join(current_value).strip()] *)
Definition flush (st : State) : Violation :=
  match current_field st, current_value st with
  | Some f, _ :: _ => set_field f (joined (current_value st)) (violation st)
  | _, _ => violation st
  end.

(** Truth value of [violation['reason']]: [None] and [''] are false. *)
Definition truthy (o : option str) : bool :=
  match o with
  | Some (_ :: _) => true
  | _ => false
  end.

(** One turn of the loop on a stripped line that is not empty.  The six
    label branches of the source have the same body, with the field as
    the only difference. *)
Definition step (line : str) (st : State) : State :=
  match classify line with
  | Some f =>
      {| violation := flush st;
         current_field := Some f;
         current_value := [label_text f line] |}
  | None =>
      match current_field st with
      | Some _ =>
          {| violation := violation st;
             current_field := current_field st;
             current_value := current_value st ++ [line] |}
      | None =>
          if negb (truthy (reason (violation st)))
          then {| violation := set_field FReason line (violation st);
                  current_field := None;
                  current_value := current_value st |}
          else {| violation := violation st;
                  current_field := None;
                  current_value := current_value st ++ [line] |}
      end
  end.

(** The [while idx < len(lines)] loop, on the lines from [idx] on: the
    state when it stops and the number of lines it has stepped over (the
    empty line that stops it is not counted). *)
Fixpoint block_loop (ls : list str) (st : State) : State * nat :=
  match ls with
  | [] => (st, O)
  | l :: rest =>
      let line := strip l in
      if is_empty line then (st, O)
      else
        let '(st', n) := block_loop rest (step line st) in
        (st', S n)
  end.

Definition init_state (r : str) : State :=
  {| violation := new_violation r; current_field := None;
     current_value := [] |}.

(** [parse_violation_block(lines, start_idx)] *)
Definition parse_violation_block (lines : list str) (start_idx : nat)
  : option Violation * nat :=
  match lines !! start_idx with
  | None => (None, start_idx)
  | Some l =>
      match violation_match (strip l) with
      | None => (None, S start_idx)
      | Some g =>
          let '(st, n) :=
            block_loop (drop (S start_idx) lines) (init_state (strip g)) in
          (Some (flush st), (S start_idx + n)%nat)
      end
  end.

(** The loop of [extract_violations], from [idx] with the violations found
    so far; [fuel] bounds the number of turns and [None] means it ran
    out. *)
Fixpoint extract_loop (fuel : nat) (lines : list str) (idx : nat)
  (violations : list Violation) : option (list Violation) :=
  if (idx <? length lines)%nat then
    match fuel with
    | O => None
    | S fuel' =>
        let '(v, next_idx) := parse_violation_block lines idx in
        extract_loop fuel' lines next_idx
          (match v with
           | Some x => violations ++ [x]
           | None => violations
           end)
    end
  else Some violations.

(** [extract_violations], on the lines read from the file.  Every turn
    moves [idx] forward, so [length lines] turns are enough
    (see [extract_violations_total]). *)
Definition extract_violations (lines : list str)
  : option (list Violation) :=
  extract_loop (length lines) lines 0 [].

(** *** The block as the loop reads it *)

(** The lines the loop steps over: the lines after the start line, each
    stripped, up to the first one that strips to the empty string. *)
Fixpoint block_lines (ls : list str) : list str :=
  match ls with
  | [] => []
  | l :: rest =>
      let line := strip l in
      if is_empty line then [] else line :: block_lines rest
  end.

(** A line that opens no field: the final [else] of the chain. *)
Definition unlabeled (line : str) : Prop := classify line = None.

(** The text after the label of a label line. *)
Definition after_label (f : Field) (line : str) : str :=
  drop (length (label f)) line.

(** [s] is the value of the no-label fallback: the first line of the block,
    which carries no label. *)
Definition Fallback (blk : list str) (s : str) : Prop :=
  exists rest, blk = s :: rest /\ unlabeled s.

(** The block holds a segment of the field [f]: the line [lab] with the
    label of [f], followed by the lines [conts] without a label, up to the
    next label line or the end of the block. *)
Definition Segment (blk : list str) (f : Field) (lab : str)
  (conts : list str) : Prop :=
  exists l1 l2,
    blk = l1 ++ lab :: conts ++ l2 /\
    classify lab = Some f /\
    Forall unlabeled conts /\
    (forall x, head l2 = Some x -> ~ unlabeled x).

(** The value the spec's round trip gives a field: the text of the label
    line after its label and the source lines that continue it, joined by
    a newline, the whole stripped once. *)
Definition joined_source (remainder : str) (source_lines : list str) : str :=
  strip (join [NL] (remainder :: source_lines)).

(** The state after the loop has stepped over the lines [blk]. *)
Definition run (blk : list str) (st : State) : State :=
  foldl (fun st line => step line st) st blk.

(** [s] is the flushed buffer of a segment of the field [g] that a later
    label line, [lab'], has closed. *)
Definition Closed (done : list str) (g : Field) (s : str) : Prop :=
  exists l1 lab conts lab' l2,
    done = l1 ++ lab :: conts ++ lab' :: l2 /\ classify lab = Some g /\
    Forall unlabeled conts /\ ~ unlabeled lab' /\
    s = joined (label_text g lab :: conts).

(** What holds of the state once the loop has stepped over [done]:
    before the first label line the only key that can be set is [reason],
    by the fallback, to the first line; after it the buffer holds the
    segment being read; and every value in the dictionary is the fallback
    or comes from a segment that a later label line has closed. *)
Record Inv (done : list str) (st : State) : Prop := {
  inv_none :
    current_field st = None ->
    Forall unlabeled done /\
    forall g, get_field g (violation st)
              = if decide (g = FReason) then head done else None;
  inv_some :
    forall f, current_field st = Some f ->
    exists l1 lab conts,
      done = l1 ++ lab :: conts /\ classify lab = Some f /\
      Forall unlabeled conts /\
      current_value st = label_text f lab :: conts;
  inv_values :
    forall g s, get_field g (violation st) = Some s ->
    (g = FReason /\ Fallback done s) \/ Closed done g s;
}.

End Violations.

(** ** Exceptions *)

(** The exceptions the extractors can leave with; a [ValueError] carries
    its message (without the text of a parser's own error, which the
    source appends to two of them). *)
Inductive exn :=
  | ValueError (msg : str)
  | TypeError
  | KeyError.

Inductive result (A : Type) :=
  | Ok (a : A)
  | Raise (e : exn).

Arguments Ok {A} a.
Arguments Raise {A} e.

(** [for i, line in enumerate(lines): if line.strip() == marker: ... i + 1]:
    the index after the first line that is the marker, [i] being the index
    of the head of [lines]. *)
Fixpoint find_marker (marker : str) (lines : list str) (i : nat)
  : option nat :=
  match lines with
  | [] => None
  | line :: rest =>
      if bool_decide (strip line = marker) then Some (S i)
      else find_marker marker rest (S i)
  end.

(** ** extract_image_refs.py *)

Module ImageRefs.

(** The variables of the scanning loop. *)
Record Scan := {
  image_refs : list str;
  in_components : bool;
  component_list : list str;
  seen_refs : gset str;
}.

Definition init_scan : Scan :=
  {| image_refs := []; in_components := false; component_list := [];
     seen_refs := ∅ |}.

(** [stripped.replace('ImageRef:', '').strip()] *)
Definition ref_of (stripped : str) : str :=
  strip (replace stripped (lit "ImageRef:") []).

(** The [while i < len(lines)] loop, on the lines from index [i] on;
    [start] is [validate_start_idx]. *)
Fixpoint scan_loop (start : nat) (ls : list str) (i : nat) (st : Scan)
  : Scan :=
  match ls with
  | [] => st
  | line :: rest =>
      let stripped := strip line in
      if startswith stripped (lit "Results:") then st
      else if startswith stripped (lit "STEP-") && (start <? i)%nat then st
      else
        (* single ImageRef in the header *)
        let st1 :=
          if startswith stripped (lit "ImageRef:") then
            let image_ref := ref_of stripped in
            if negb (is_empty image_ref)
               && bool_decide (image_ref ∉ seen_refs st)
            then {| image_refs := image_refs st ++ [image_ref];
                    in_components := in_components st;
                    component_list := component_list st;
                    seen_refs := seen_refs st ∪ {[image_ref]} |}
            else st
          else st in
        if startswith stripped (lit "COMPONENTS:") then
          scan_loop start rest (S i)
            {| image_refs := image_refs st1;
               in_components := true;
               component_list := component_list st1;
               seen_refs := seen_refs st1 |}
        else
          let st2 :=
            if in_components st1 then
              if startswith stripped (lit "ImageRef:") then
                let image_ref := ref_of stripped in
                if negb (is_empty image_ref)
                   && bool_decide (image_ref ∉ seen_refs st1)
                then {| image_refs := image_refs st1;
                        in_components := in_components st1;
                        component_list := component_list st1 ++ [image_ref];
                        seen_refs := seen_refs st1 ∪ {[image_ref]} |}
                else st1
              else if is_empty stripped
                      || startswith stripped (lit "Results:")
              then {| image_refs := image_refs st1 ++ component_list st1;
                      in_components := false;
                      component_list := [];
                      seen_refs := seen_refs st1 |}
              else st1
            else st1 in
          scan_loop start rest (S i) st2
  end.

(** [extract_image_refs], on the lines read from the file. *)
Definition extract_image_refs (lines : list str) : result (list str) :=
  match find_marker (lit "STEP-VALIDATE") lines 0 with
  | None =>
      Raise (ValueError (lit "STEP-VALIDATE section not found in log file"))
  | Some validate_start_idx =>
      let st :=
        scan_loop validate_start_idx (drop validate_start_idx lines)
          validate_start_idx init_scan in
      (* add any remaining components *)
      let refs := image_refs st ++ component_list st in
      match refs with
      | [] =>
          Raise (ValueError
                   (lit "No image references found in STEP-VALIDATE section"))
      | _ :: _ => Ok refs
      end
  end.

(** *** The section as the loop reads it *)

(** The lines the loop reads: from [validate_start_idx] to the first line
    that starts with [Results:] or, after the first one, with [STEP-]. *)
Fixpoint header (start : nat) (ls : list str) (i : nat) : list str :=
  match ls with
  | [] => []
  | line :: rest =>
      let stripped := strip line in
      if startswith stripped (lit "Results:") then []
      else if startswith stripped (lit "STEP-") && (start <? i)%nat then []
      else line :: header start rest (S i)
  end.

(** The reference a line lists: the value of an [ImageRef:] line, when it
    is not empty. *)
Definition line_ref (line : str) : option str :=
  let stripped := strip line in
  if startswith stripped (lit "ImageRef:") then
    let image_ref := ref_of stripped in
    if is_empty image_ref then None else Some image_ref
  else None.

(** The references found inside the section, in the order of the lines,
    with their repetitions; none when the marker is absent. *)
Definition section_refs (lines : list str) : list str :=
  match find_marker (lit "STEP-VALIDATE") lines 0 with
  | None => []
  | Some start => omap line_ref (header start (drop start lines) start)
  end.

(** [acc] extended with the values of [rs] it does not hold yet, each at
    its first appearance. *)
Fixpoint dedup_onto (acc rs : list str) : list str :=
  match rs with
  | [] => acc
  | r :: rs' =>
      dedup_onto (if bool_decide (r ∈ acc) then acc else acc ++ [r]) rs'
  end.

(** The first test of the loop body on an [ImageRef:] line. *)
Definition listed (r : str) (st : Scan) : Scan :=
  if negb (is_empty r) && bool_decide (r ∉ seen_refs st)
  then {| image_refs := image_refs st ++ [r];
          in_components := in_components st;
          component_list := component_list st;
          seen_refs := seen_refs st ∪ {[r]} |}
  else st.

(** What holds of the scan at every turn: the side buffer is empty and
    the set holds the references listed so far. *)
Definition Good (st : Scan) : Prop :=
  component_list st = [] /\ seen_refs st = list_to_set (image_refs st).

(** *** The section as the comments describe it *)

(** "The section header ends when we hit [Results:] or the next [STEP-]
    marker": the lines after the marker, up to the first one that starts
    with [Results:] or with [STEP-], be it the very next line. *)
Fixpoint described_header (ls : list str) : list str :=
  match ls with
  | [] => []
  | line :: rest =>
      let stripped := strip line in
      if startswith stripped (lit "Results:") then []
      else if startswith stripped (lit "STEP-") then []
      else line :: described_header rest
  end.

(** The references of the section so described. *)
Definition described_section_refs (lines : list str) : list str :=
  match find_marker (lit "STEP-VALIDATE") lines 0 with
  | None => []
  | Some start => omap line_ref (described_header (drop start lines))
  end.

End ImageRefs.

(** ** The values [json.loads] returns *)

Module Json.

(** A parsed JSON document as a Python value.  A [dict] keeps its keys in
    insertion order and holds each key once. *)
Inductive pyval :=
  | PNone
  | PBool (b : bool)
  | PInt (z : Z)
  | PFloat (f : PrimFloat.float)
  | PStr (s : str)
  | PList (l : list pyval)
  | PDict (d : list (str * pyval)).

(** [d[key]] on the items of a dictionary. *)
Fixpoint lookup (key : str) (d : list (str * pyval)) : option pyval :=
  match d with
  | [] => None
  | (k, v) :: d' => if bool_decide (k = key) then Some v else lookup key d'
  end.

(** Truth value of a value: [not v] is [negb (truth v)]. *)
Definition truth (v : pyval) : bool :=
  match v with
  | PNone => false
  | PBool b => b
  | PInt z => negb (z =? 0)%Z
  | PFloat f => negb (PrimFloat.eqb f PrimFloat.zero)
  | PStr s => negb (is_empty s)
  | PList l => match l with [] => false | _ => true end
  | PDict d => match d with [] => false | _ => true end
  end.

(** [key in data] for a string [key]: a key of a dictionary, an element
    of a list, a substring of a string, and a [TypeError] on the values
    that are not containers. *)
Definition has_key (key : str) (data : pyval) : result bool :=
  match data with
  | PDict d => Ok (bool_decide (is_Some (lookup key d)))
  | PList l =>
      Ok (existsb (fun x => match x with
                            | PStr s => bool_decide (s = key)
                            | _ => false
                            end) l)
  | PStr s => Ok (contains s key)
  | _ => Raise TypeError
  end.

(** [data[key]] for a string [key]: only a dictionary can be indexed by
    a string. *)
Definition getitem (key : str) (data : pyval) : result pyval :=
  match data with
  | PDict d =>
      match lookup key d with
      | Some v => Ok v
      | None => Raise KeyError
      end
  | _ => Raise TypeError
  end.

End Json.

Import Json.

(** A string in double quotes, as in the source's ['"components"']. *)
Definition quoted (s : string) : str := [34] ++ lit s ++ [34].

Definition LBRACE : char := 123.
Definition RBRACE : char := 125.

(** ** extract_components.py *)

Module Components.

(** The index of the first line that starts, once stripped, with an
    opening brace and that contains one of the three quoted keys; [i] is
    the index of the head of [lines]. *)
Fixpoint find_json_start (lines : list str) (i : nat) : option nat :=
  match lines with
  | [] => None
  | line :: rest =>
      if startswith (strip line) [LBRACE]
         && (contains line (quoted "components")
             || contains line (quoted "component")
             || contains line (quoted "application"))
      then Some i
      else find_json_start rest (S i)
  end.

(** [for i in range(json_start_idx, len(lines))]: the lines appended to
    [json_lines], from index [i] with the running [brace_count]. *)
Fixpoint collect (json_start_idx : nat) (ls : list str) (i : nat)
  (brace_count : Z) : list str :=
  match ls with
  | [] => []
  | line :: rest =>
      let brace_count :=
        (brace_count + (count line LBRACE - count line RBRACE))%Z in
      if (brace_count =? 0)%Z && (json_start_idx <? i)%nat
      then [line]
      else line :: collect json_start_idx rest (S i) brace_count
  end.

(** [''.join(json_lines)] for the block that starts at [json_start_idx]:
    the text handed to [json.loads]. *)
Definition json_str (lines : list str) (json_start_idx : nat) : str :=
  join [] (collect json_start_idx (drop json_start_idx lines)
             json_start_idx 0).

Section WithParser.

(** [json.loads] belongs to Python's library: [None] stands for its
    [JSONDecodeError]. *)
Variable loads : str -> option pyval.

(** The body of the [try], on the parsed [data]. *)
Definition normalize (data : pyval) : result pyval :=
  match has_key (lit "components") data with
  | Raise e => Raise e
  | Ok true =>
      match getitem (lit "components") data with
      | Raise e => Raise e
      | Ok components =>
          if negb (truth components)
          then Raise (ValueError (lit "Components array is empty"))
          else Ok components
      end
  | Ok false =>
      match has_key (lit "component") data with
      | Raise e => Raise e
      | Ok true =>
          match getitem (lit "component") data with
          | Raise e => Raise e
          | Ok c => Ok (PList [c])
          end
      | Ok false =>
          Raise (ValueError
                   (lit "No 'components' or 'component' key found in JSON block"))
      end
  end.

(** [extract_components], on the lines read from the file. *)
Definition extract_components (lines : list str) : result pyval :=
  match find_json_start lines 0 with
  | None =>
      Raise (ValueError (lit "No components JSON block found in log file"))
  | Some json_start_idx =>
      match loads (json_str lines json_start_idx) with
      | None => Raise (ValueError (lit "Could not parse components JSON"))
      | Some data => normalize data
      end
  end.

End WithParser.

End Components.

(** ** extract_policy.py *)

Module Policy.

(** The variables of the collecting loop. *)
Record Collect := {
  json_lines : list str;
  brace_count : Z;
  started : bool;
}.

(** [for i in range(config_start_idx, len(lines))] *)
Fixpoint collect (ls : list str) (st : Collect) : Collect :=
  match ls with
  | [] => st
  | line :: rest =>
      let stripped := strip line in
      if is_empty stripped && negb (started st) then collect rest st
      else
        let started' := startswith stripped [LBRACE] || started st in
        if started' then
          let bc :=
            (brace_count st
             + (count stripped LBRACE - count stripped RBRACE))%Z in
          let st' := {| json_lines := json_lines st ++ [stripped];
                        brace_count := bc; started := true |} in
          if (bc =? 0)%Z && endswith stripped [RBRACE] then st'
          else collect rest st'
        else collect rest st
  end.

(** The text handed to [json.loads], when a block has been collected. *)
Definition json_str (lines : list str) (config_start_idx : nat)
  : option str :=
  let st := collect (drop config_start_idx lines)
              {| json_lines := []; brace_count := 0; started := false |} in
  match json_lines st with
  | [] => None
  | _ :: _ => Some (join (lit " ") (json_lines st))
  end.

Section WithParser.

Variable loads : str -> option pyval.

(** [extract_policy], on the lines read from the file. *)
Definition extract_policy (lines : list str) : result pyval :=
  match find_marker (lit "STEP-SHOW-CONFIG") lines 0 with
  | None =>
      Raise (ValueError (lit "STEP-SHOW-CONFIG section not found in log file"))
  | Some config_start_idx =>
      match json_str lines config_start_idx with
      | None =>
          Raise (ValueError (lit "Could not find JSON policy configuration"))
      | Some s =>
          match loads s with
          | None =>
              Raise (ValueError
                       (lit "Failed to parse JSON policy configuration"))
          | Some policy_data => Ok policy_data
          end
      end
  end.

End WithParser.

End Policy.

(** ** auto_resolve.py: the correlator *)

Module Correlator.

(** A component as the correlator reads it: only the key
    [containerImage], a string when it is there ([None] when the key is
    absent), is looked at; [name] stands for the rest of the record. *)
Record Component := {
  name : str;
  containerImage : option str;
}.

Definition SHA : str := lit "@sha256:".
Definition AT : str := lit "@".

(** [violation_digest]: [None] unless the reference has the separator. *)
Definition digest_of (violation_image_ref : str) : option str :=
  if contains violation_image_ref SHA
  then Some (last_piece (split violation_image_ref SHA))
  else None.

(** [x.split("@")[0] if "@" in x else x] *)
Definition image_name (x : str) : str :=
  if contains x AT then first_piece (split x AT) else x.

(** The three tests of the loop body on one component image that is not
    empty, in the order of the source. *)
Definition image_matches (violation_image_ref : str)
  (violation_digest : option str) (component_image : str) : bool :=
  if bool_decide (component_image = violation_image_ref) then true
  else if
    match violation_digest with
    | Some d =>
        negb (is_empty d)
        && contains component_image SHA
        && bool_decide (last_piece (split component_image SHA) = d)
    | None => false
    end
  then true
  else
    bool_decide (image_name violation_image_ref = image_name component_image)
    && match violation_digest with
       | Some d => negb (is_empty d) && contains component_image d
       | None => false
       end.

(** [for component in components] *)
Fixpoint match_loop (violation_image_ref : str)
  (violation_digest : option str) (components : list Component)
  : option Component :=
  match components with
  | [] => None
  | component :: rest =>
      let component_image := default [] (containerImage component) in
      if is_empty component_image
      then match_loop violation_image_ref violation_digest rest
      else if image_matches violation_image_ref violation_digest
                component_image
      then Some component
      else match_loop violation_image_ref violation_digest rest
  end.

(** [match_component_to_violation] *)
Definition match_component_to_violation (violation_image_ref : str)
  (components : list Component) : option Component :=
  if is_empty violation_image_ref then None
  else
    match components with
    | [] => None
    | _ :: _ =>
        match_loop violation_image_ref (digest_of violation_image_ref)
          components
    end.

(** *** The three rules *)

(** Rule 1: the image is the reference. *)
Definition Exact (ref img : str) : Prop := img = ref.

(** Rule 2: the reference has a digest after [@sha256:] that is not
    empty, and the image has the separator with the same text after it. *)
Definition SameDigest (ref img : str) : Prop :=
  exists d,
    digest_of ref = Some d /\ d <> [] /\
    contains img SHA = true /\ last_piece (split img SHA) = d.

(** Rule 3: the texts before the first [@] are the same and the digest of
    the reference occurs in the image. *)
Definition NameAndDigest (ref img : str) : Prop :=
  exists d,
    digest_of ref = Some d /\ d <> [] /\
    image_name ref = image_name img /\ contains img d = true.

(** A component that one of the rules accepts; a component without an
    image, or with an empty one, is skipped. *)
Definition Matches (ref : str) (c : Component) : Prop :=
  exists img,
    containerImage c = Some img /\ img <> [] /\
    (Exact ref img \/ SameDigest ref img \/ NameAndDigest ref img).

End Correlator.

(** ** Logs used in the examples *)

Module Fixtures.

Import Violations ImageRefs Correlator.

(** A line of a log, with its line terminator. *)
Definition line (s : string) : str := lit s ++ [NL].

(** A violation-start line for the rule [r]. *)
Definition start_line (r : string) : str :=
  sigil ++ lit " [Violation] " ++ lit r ++ [NL].

(** The end-to-end scenario: one block with an image reference and a
    reason, closed by an empty line. *)
Definition cve_log : list str :=
  [ line "STEP-REPORT";
    start_line "cve.no_known_vulnerabilities";
    line "  ImageRef: registry/x@sha256:111";
    line "  Reason: found CVE";
    line "";
    line "done" ].

Definition cve_violation : Violation :=
  {| rule := lit "cve.no_known_vulnerabilities";
     image_ref := Some (lit "registry/x@sha256:111");
     reason := Some (lit "found CVE");
     term := None; title := None; description := None; solution := None |}.

(** A reason that wraps onto an indented second line. *)
Definition wrapped_log : list str :=
  [ start_line "tasks.required";
    line "  Reason: first part";
    line "      second part";
    line "" ].

Definition wrapped_reason : str :=
  lit "first part" ++ [NL] ++ lit "second part".

Definition wrapped_violation : Violation :=
  {| rule := lit "tasks.required";
     image_ref := None;
     reason := Some wrapped_reason;
     term := None; title := None; description := None; solution := None |}.

(** A label with nothing after it. *)
Definition bare_label_log : list str :=
  [ start_line "tasks.required";
    line "  Reason:";
    line "  Term: build" ].

Definition bare_label_violation : Violation :=
  {| rule := lit "tasks.required";
     image_ref := None;
     reason := Some [];
     term := Some (lit "build");
     title := None; description := None; solution := None |}.

(** A block that starts with two lines without a label. *)
Definition fallback_before : list str := [ line "STEP-REPORT" ].
Definition fallback_first : str := line "  image is not signed".
Definition fallback_dropped : list str :=
  [ line "  see the signing guide"; line "  or ask the release team" ].
Definition fallback_rest : list str := [ line "  Title: Signature"; line "" ].

(** A log without any violation. *)
Definition clean_log : list str :=
  [ line "STEP-VALIDATE"; line "Success: true"; line "Results:" ].

(** A section that lists one image on a standalone line and again under
    [COMPONENTS:]. *)
Definition validate_refs : list str :=
  [ lit "quay.io/a@sha256:1"; lit "quay.io/b@sha256:2" ].

Definition validate_log : list str :=
  [ line "STEP-VALIDATE";
    line "ImageRef: quay.io/a@sha256:1";
    line "COMPONENTS:";
    line "  ImageRef: quay.io/b@sha256:2";
    line "  ImageRef: quay.io/a@sha256:1";
    line "";
    line "Results:";
    line "ImageRef: quay.io/c@sha256:3" ].

(** A components block in which a string value holds a closing brace. *)
Definition braces_open : str :=
  [LBRACE] ++ quoted "components" ++ lit ": [" ++ [NL].
Definition braces_first : str :=
  lit "  {" ++ quoted "name" ++ lit ": " ++ quoted "web" ++ lit ", "
  ++ quoted "note" ++ lit ": " ++ quoted "fix } later" ++ lit "}," ++ [NL].
Definition braces_second : str :=
  lit "  {" ++ quoted "name" ++ lit ": " ++ quoted "api" ++ lit "}" ++ [NL].
Definition braces_close : str := lit "]}" ++ [NL].

Definition braces_log : list str :=
  [ line "Fetching components";
    braces_open; braces_first; braces_second; braces_close;
    line "done" ].

(** The same for the policy configuration. *)
Definition policy_open : str := lit "  {" ++ [NL].
Definition policy_note : str :=
  lit "    " ++ quoted "note" ++ lit ": " ++ quoted "}" ++ lit "," ++ [NL].
Definition policy_sources : str :=
  lit "    " ++ quoted "sources" ++ lit ": {" ++ quoted "n" ++ lit ": 1}"
  ++ [NL].
Definition policy_close : str := lit "  }" ++ [NL].

Definition policy_log : list str :=
  [ line "STEP-SHOW-CONFIG";
    policy_open; policy_note; policy_sources; policy_close;
    line "STEP-VALIDATE" ].

(** A one-line components block, and a parser that knows this text
    only. *)
Definition one_component_text : str :=
  [LBRACE] ++ quoted "components" ++ lit ": [{" ++ quoted "name" ++ lit ": "
  ++ quoted "web" ++ lit "}]}" ++ [NL].

Definition one_component_log : list str :=
  [ line "Fetching components"; one_component_text ].

Definition one_component_doc : list (str * pyval) :=
  [ (lit "components", PList [PDict [(lit "name", PStr (lit "web"))]]) ].

Definition one_text_loads (s : str) : option pyval :=
  if bool_decide (s = one_component_text)
  then Some (PDict one_component_doc) else None.

(** The precedence scenario: the reference, a component with this very
    image, and a component of another repository with the same digest. *)
(** A validate section without a line of its own: the next marker follows
    at once, and the section after it names an image. *)
Definition next_step_ref : str := lit "quay.io/x@sha256:1".

Definition next_step_log : list str :=
  [ line "STEP-VALIDATE";
    line "STEP-REPORT";
    line "ImageRef: quay.io/x@sha256:1";
    line "STEP-END" ].

Definition ref_AAA : str := lit "registry/a@sha256:AAA".

Definition exact_component : Component :=
  {| name := lit "exact"; containerImage := Some ref_AAA |}.

Definition mirror_component : Component :=
  {| name := lit "mirror";
     containerImage := Some (lit "mirror/a@sha256:AAA") |}.

End Fixtures.

(** ** What the further properties are stated with *)

(** The violation [v] comes from the start line at index [i]: the line
    matches the pattern and the rule is the stripped text it captures,
    which is not empty. *)
Definition started_at (lines : list str) (i : nat)
  (v : Violations.Violation) : Prop :=
  exists l g,
    lines !! i = Some l /\ violation_match (strip l) = Some g /\
    Violations.rule v = strip g /\ Violations.rule v <> [].

(** The braces a list of lines leaves open: the opening ones minus the
    closing ones. *)
Definition balance (ls : list str) : Z :=
  foldr (fun l n => (count l LBRACE - count l RBRACE + n)%Z) 0%Z ls.

(** A line that opens the policy block: stripped, it starts with a
    brace. *)
Definition opens_block (l : str) : bool := startswith (strip l) [LBRACE].

(** The test that ends the policy block at its line [l], with [n] braces
    open after it. *)
Definition closes_block (n : Z) (l : str) : bool :=
  (n =? 0)%Z && endswith (strip l) [RBRACE].

(** The variables of the collecting loop of [extract_policy] when it
    starts. *)
Definition init_collect : Policy.Collect :=
  {| Policy.json_lines := []; Policy.brace_count := 0;
     Policy.started := false |}.

(** ** extract_violations.py: the text output *)

Module Format.

Import Violations.

(** [str(n)] for an [int] that is not negative. *)
Definition decimal (n : nat) : str :=
  lit (NilEmpty.string_of_uint (Nat.to_uint n)).

(** ['='*80] *)
Definition bar : str := repeat 61 80.

(** [if violation.get(key): output.append(f"<name>: {violation[key]}")]:
    the lines the test adds to [output]. *)
Definition field_lines (name : string) (o : option str) : list str :=
  if truthy o then [lit name ++ lit ": " ++ default [] o] else [].

(** [format_violation(violation, index)] *)
Definition format_violation (v : Violation) (index : nat) : str :=
  join [NL]
    ([ [NL] ++ bar;
       lit "Violation #" ++ decimal (index + 1);
       bar;
       lit "Rule: " ++ rule v ]
     ++ field_lines "ImageRef" (image_ref v)
     ++ field_lines "Reason" (reason v)
     ++ field_lines "Term" (term v)
     ++ field_lines "Title" (title v)
     ++ field_lines "Description" (description v)
     ++ field_lines "Solution" (solution v)).

(** A field without its empty string: [None] for [Some ""]. *)
Definition unset_empty (o : option str) : option str :=
  match o with
  | Some [] => None
  | _ => o
  end.

(** The violation with every field that holds the empty string unset. *)
Definition without_empty_fields (v : Violation) : Violation :=
  {| rule := rule v;
     image_ref := unset_empty (image_ref v);
     reason := unset_empty (reason v);
     term := unset_empty (term v);
     title := unset_empty (title v);
     description := unset_empty (description v);
     solution := unset_empty (solution v) |}.

End Format.

(** ** auto_resolve.py: grouping the violations *)

Module Grouping.

Import Violations.

(** The dictionary [grouped]: its items in insertion order, each rule
    once. *)
Definition groups := list (str * list Violation).

(** [grouped.get(rule)] *)
Fixpoint group_of (rule : str) (grouped : groups)
  : option (list Violation) :=
  match grouped with
  | [] => None
  | (k, vs) :: rest =>
      if bool_decide (k = rule) then Some vs else group_of rule rest
  end.

(** The body of the loop:
    [if rule not in grouped: grouped[rule] = []] and then
    [grouped[rule].append(violation)].  A new rule goes to the end of
    the dictionary. *)
Fixpoint add (rule : str) (v : Violation) (grouped : groups) : groups :=
  match grouped with
  | [] => [(rule, [v])]
  | (k, vs) :: rest =>
      if bool_decide (k = rule) then (k, vs ++ [v]) :: rest
      else (k, vs) :: add rule v rest
  end.

(** [for violation in violations], from the dictionary [grouped].  Every
    violation the extractor writes has the key [rule], so the default of
    [violation.get("rule", "unknown")] is not used. *)
Fixpoint group_loop (violations : list Violation) (grouped : groups)
  : groups :=
  match violations with
  | [] => grouped
  | violation :: rest =>
      group_loop rest (add (rule violation) violation grouped)
  end.

(** [group_violations_by_rule(violations)] *)
Definition group_violations_by_rule (violations : list Violation) : groups :=
  group_loop violations [].

(** The keys of the dictionary, in its order. *)
Definition rules_of (grouped : groups) : list str := map fst grouped.

(** [sum(len(vs) for vs in grouped.values())] *)
Definition total (grouped : groups) : nat :=
  foldr (fun g n => (length g.2 + n)%nat) 0%nat grouped.

(** No group of the dictionary is empty. *)
Definition filled (grouped : groups) : Prop :=
  Forall (fun kv => kv.2 <> []) grouped.

End Grouping.

(** ** auto_resolve.py: the texts of the prompt *)

Module Prompt.

Import Violations.

Definition DOT : str := lit ".".

(** [s.split(sep, maxsplit)] for a non-empty [sep]: at most [maxsplit]
    cuts, from the left; [cur] is the piece being read, reversed. *)
Fixpoint split_max (sep : str) (maxsplit skip : nat) (cur s : str)
  : list str :=
  match s with
  | [] => [rev cur]
  | c :: s' =>
      match skip with
      | S k => split_max sep maxsplit k cur s'
      | O =>
          match maxsplit with
          | O => [rev cur ++ s]
          | S m =>
              if startswith s sep
              then rev cur :: split_max sep m (length sep - 1)%nat [] s'
              else split_max sep maxsplit 0 (c :: cur) s'
          end
      end
  end.

(** [package, rule_name = rule.split('.', 1) if '.' in rule
    else (rule, "")]; [None] stands for the [ValueError] of an unpacking
    that does not find two values. *)
Definition package_and_rule (rule : str) : option (str * str) :=
  if contains rule DOT then
    match split_max DOT 1 0 [] rule with
    | [package; rule_name] => Some (package, rule_name)
    | _ => None
    end
  else Some (rule, []).

(** The end of [fetch_crd_schema], on the text of the response:
    [schema[:8000] + "\n... (truncated - see full schema at the URL)"]
    when it is longer than 8000 characters. *)
Definition crd_schema_of_response (schema : str) : str :=
  if (8000 <? length schema)%nat
  then take 8000 schema
       ++ [NL] ++ lit "... (truncated - see full schema at the URL)"
  else schema.

(** [crd_schema = fetch_crd_schema() or "CRD schema not available"] and
    then [crd_schema[:8000] + "\n... (truncated)"] when it is longer than
    8000 characters; [fetched] is what [fetch_crd_schema] has returned,
    [None] after an exception. *)
Definition crd_schema_for_prompt (fetched : option str) : str :=
  let crd_schema :=
    if truthy fetched then default [] fetched
    else lit "CRD schema not available" in
  if (8000 <? length crd_schema)%nat
  then take 8000 crd_schema ++ [NL] ++ lit "... (truncated)"
  else crd_schema.

(** What the loop over the solutions ends with: its list, or the
    [AttributeError] of [None.strip()]. *)
Inductive attempt (A : Type) :=
  | Done (a : A)
  | AttributeError.

Arguments Done {A} a.
Arguments AttributeError {A}.

(** [for v in rule_violations:
       solution = v.get("solution", "").strip()
       if solution and solution not in solutions:
           solutions.append(solution)].
    The key [solution] is in every violation the extractor writes, with
    [None] when the block has no such label, so [get] answers [None]
    there and not its default. *)
Fixpoint collect_solutions (rule_violations : list Violation)
  (solutions : list str) : attempt (list str) :=
  match rule_violations with
  | [] => Done solutions
  | v :: rest =>
      match solution v with
      | None => AttributeError
      | Some s =>
          let solution := strip s in
          collect_solutions rest
            (if negb (is_empty solution)
                && bool_decide (solution ∉ solutions)
             then solutions ++ [solution]
             else solutions)
      end
  end.

(** [solution_text] *)
Definition solution_text (rule_violations : list Violation)
  : attempt str :=
  match collect_solutions rule_violations [] with
  | AttributeError => AttributeError
  | Done [] => Done (lit "No solution provided in violation")
  | Done solutions => Done (join [NL] solutions)
  end.

(** The solutions of the violations, stripped, without the empty
    ones. *)
Definition stripped_solutions (vs : list Violation) : list str :=
  filter (fun s => s <> []) (omap (fun v => strip <$> solution v) vs).

End Prompt.

(** ** extract_components.py as auto_resolve.py runs it *)

Module Pipeline.

(** [main] of extract_components.py under [--json], without [--name]:
    the value it prints for the [components] the extractor has returned,
    [components[0]] when [len(components) == 1]. *)
Definition json_output (components : pyval) : result pyval :=
  match components with
  | PList [c] => Ok c
  | PList l => Ok (PList l)
  | PDict [_] => Raise KeyError
  | PDict d => Ok (PDict d)
  | PStr [c] => Ok (PStr [c])
  | PStr s => Ok (PStr s)
  | _ => Raise TypeError
  end.

Section WithJson.

(** [json.loads] and [json.dumps(_, indent=2)] of Python's library. *)
Variable loads : str -> option pyval.
Variable dumps : pyval -> str.

(** The standard output of the script when it ends with the exit code 0,
    [None] when it ends with the exit code 1 (both [except] clauses of
    [main] call [sys.exit(1)]). *)
Definition script_stdout (lines : list str) : option str :=
  match Components.extract_components loads lines with
  | Raise _ => None
  | Ok components =>
      match json_output components with
      | Raise _ => None
      | Ok printed => Some (dumps printed ++ [NL])
      end
  end.

(** [extract_components] of auto_resolve.py: [[]] after a
    [CalledProcessError] or a [JSONDecodeError], and
    [data if isinstance(data, list) else [data]] otherwise. *)
Definition resolve_components (lines : list str) : list pyval :=
  match script_stdout lines with
  | None => []
  | Some stdout =>
      match loads stdout with
      | None => []
      | Some data =>
          match data with
          | PList l => l
          | _ => [data]
          end
      end
  end.

End WithJson.

End Pipeline.

(** ** More logs for the examples *)

Module Scenarios.

Import Fixtures.

(** Two start lines in a row, then the empty line that closes the
    block. *)
Definition first_start : str := start_line "tasks.required".
Definition second_start : str := start_line "cve.no_known_vulnerabilities".
Definition adjacent_rest : list str := [ line ""; line "done" ].

(** Two blocks with an empty line in between. *)
Definition block_one : list str :=
  [ start_line "tasks.required"; line "  Reason: task missing" ].
Definition block_two : list str :=
  [ start_line "cve.no_known_vulnerabilities"; line "  Term: CVE-1" ].

Definition violation_one : Violations.Violation :=
  {| Violations.rule := lit "tasks.required";
     Violations.image_ref := None;
     Violations.reason := Some (lit "task missing");
     Violations.term := None; Violations.title := None;
     Violations.description := None; Violations.solution := None |}.

Definition violation_two : Violations.Violation :=
  {| Violations.rule := lit "cve.no_known_vulnerabilities";
     Violations.image_ref := None;
     Violations.reason := None;
     Violations.term := Some (lit "CVE-1"); Violations.title := None;
     Violations.description := None; Violations.solution := None |}.

(** A validate section, what is before it and two ways the log can go
    on after its [Results:] line. *)
Definition before_marker : list str := [ line "STEP-INIT"; line "ok" ].
Definition section_lines : list str := [ line "ImageRef: quay.io/a@sha256:1" ].
Definition after_results : list str :=
  [ line "ImageRef: quay.io/c@sha256:3"; line "done" ].

(** The text the toy printer writes for the only component of
    [one_component_log], and a parser that knows this text and the text
    of the block. *)
Definition web_component : pyval := PDict [(lit "name", PStr (lit "web"))].

Definition web_text : str :=
  [LBRACE] ++ [NL] ++ lit "  " ++ quoted "name" ++ lit ": " ++ quoted "web"
  ++ [NL] ++ [RBRACE].

Definition pipe_dumps (v : pyval) : str := web_text.

Definition pipe_loads (s : str) : option pyval :=
  if bool_decide (s = one_component_text) then Some (PDict one_component_doc)
  else if bool_decide (s = web_text ++ [NL]) then Some web_component
  else None.

End Scenarios.

(** * Properties *)

(** ** Stripping *)

Section Strip.

Implicit Types (s r : str) (c : char).

Lemma lstrip_head s c r : lstrip s = c :: r -> isspace c = false.
Proof.
  induction s as [|a s IH]; simpl; [discriminate|].
  destruct (isspace a) eqn:Ha; [exact IH|].
  intros [= <- _]. exact Ha.
Qed.

Lemma lstrip_nonspace c s : isspace c = false -> lstrip (c :: s) = c :: s.
Proof. intros H. simpl. now rewrite H. Qed.

Lemma lstrip_all_space s : forallb isspace s = true -> lstrip s = [].
Proof.
  induction s as [|a s IH]; simpl; [reflexivity|].
  intros [Ha Hs]%andb_prop. rewrite Ha. auto.
Qed.

Lemma rstrip_cons c s :
  rstrip (c :: s) = [] \/ exists r, rstrip (c :: s) = c :: r.
Proof. simpl. destruct (rstrip s); [destruct (isspace c)|]; eauto. Qed.

Lemma rstrip_nonspace_head c s :
  isspace c = false -> exists r, rstrip (c :: s) = c :: r.
Proof. intros H. simpl. destruct (rstrip s); [rewrite H|]; eauto. Qed.

Lemma rstrip_all_space s : forallb isspace s = true -> rstrip s = [].
Proof.
  induction s as [|a s IH]; simpl; [reflexivity|].
  intros [Ha Hs]%andb_prop. rewrite (IH Hs), Ha. reflexivity.
Qed.

Lemma rstrip_nil s : rstrip s = [] -> forallb isspace s = true.
Proof.
  induction s as [|a s IH]; simpl; [reflexivity|].
  destruct (rstrip s) eqn:E; [|discriminate].
  destruct (isspace a); [auto|discriminate].
Qed.

Lemma rstrip_idem s : rstrip (rstrip s) = rstrip s.
Proof.
  induction s as [|a s IH]; simpl; [reflexivity|].
  destruct (rstrip s) as [|b r] eqn:E.
  - destruct (isspace a) eqn:Ha; simpl; [reflexivity|]. now rewrite Ha.
  - simpl in *. rewrite IH. reflexivity.
Qed.

(** A text without trailing whitespace keeps that property on each of its
    suffixes. *)
Lemma rstrip_fixed_suffix s r : rstrip (s ++ r) = s ++ r -> rstrip r = r.
Proof.
  induction s as [|a s IH]; simpl; [auto|].
  destruct (rstrip (s ++ r)) as [|b t] eqn:E.
  - destruct (isspace a); intros H; [discriminate|].
    injection H as H. destruct s; [|discriminate]. simpl in *. now subst r.
  - intros [= H]. apply IH. exact H.
Qed.

Lemma rstrip_fixed_all_space s :
  rstrip s = s -> forallb isspace s = true -> s = [].
Proof. intros H1 H2. rewrite <-H1. now apply rstrip_all_space. Qed.

Lemma strip_rstrip_fixed s : rstrip (strip s) = strip s.
Proof. apply rstrip_idem. Qed.

Lemma strip_head s c r : strip s = c :: r -> isspace c = false.
Proof.
  unfold strip. destruct (lstrip s) as [|a t] eqn:E; [discriminate|].
  intros H. destruct (rstrip_cons a t) as [H'|[r' H']]; rewrite H' in H.
  - discriminate.
  - injection H as <- _. eapply lstrip_head, E.
Qed.

Lemma strip_nil_iff s : strip s = [] <-> forallb isspace s = true.
Proof.
  unfold strip. split.
  - intros H%rstrip_nil. revert H.
    induction s as [|a s IH]; simpl; [auto|].
    destruct (isspace a) eqn:Ha; simpl; [auto|]. now rewrite Ha.
  - intros H. now rewrite (lstrip_all_space _ H).
Qed.

Lemma strip_idem s : strip (strip s) = strip s.
Proof.
  destruct (strip s) as [|c r] eqn:E; [reflexivity|].
  unfold strip at 1. rewrite (lstrip_nonspace c r (strip_head _ _ _ E)).
  rewrite <-E. apply strip_rstrip_fixed.
Qed.

(** A text that starts with a character other than whitespace does not
    strip to the empty text. *)
Lemma strip_nonspace_head c s : isspace c = false -> strip (c :: s) <> [].
Proof.
  intros H. unfold strip. rewrite (lstrip_nonspace _ _ H).
  destruct (rstrip_nonspace_head c s H) as [r ->]. discriminate.
Qed.

Lemma is_empty_true s : is_empty s = true <-> s = [].
Proof. destruct s; simpl; split; congruence. Qed.

Lemma is_empty_false s : is_empty s = false <-> s <> [].
Proof. destruct s; simpl; split; congruence. Qed.

End Strip.

(** ** The pattern items *)

Section Pattern.

Context {A : Type}.
Implicit Types (s acc : str) (p : char -> bool).

Lemma literal_Some l s (k : str -> option A) r :
  literal l s k = Some r -> exists s', s = l ++ s' /\ k s' = Some r.
Proof.
  revert s. induction l as [|a l IH]; intros s; simpl.
  - intros H. now exists s.
  - destruct s as [|c s]; [discriminate|].
    destruct (c =? a) eqn:E; [|discriminate].
    apply N.eqb_eq in E as ->.
    intros (s' & -> & H)%IH. now exists s'.
Qed.

(** What a successful [p+] has done: it has consumed a run [ws] of the
    class that is not empty, the continuation has accepted what is left,
    and no longer run was accepted. *)
Lemma plus_Some p acc s (k : str -> str -> option A) r :
  plus p acc s k = Some r ->
  exists ws rest,
    s = ws ++ rest /\ ws <> [] /\ forallb p ws = true /\
    k (acc ++ ws) rest = Some r /\ plus p (acc ++ ws) rest k = None.
Proof.
  revert acc. induction s as [|c s IH]; intros acc; simpl; [discriminate|].
  destruct (p c) eqn:Hc; [|discriminate].
  destruct (plus p (acc ++ [c]) s k) as [r'|] eqn:E.
  - intros [= ->]. destruct (IH _ E) as (ws & rest & -> & _ & Hws & Hk & Hn).
    exists (c :: ws), rest. rewrite <-app_assoc in Hk, Hn. simpl in *.
    rewrite Hc, Hws. repeat split; auto; done.
  - intros Hk. exists [c], s. simpl. rewrite Hc. repeat split; auto; done.
Qed.

(** [p+] succeeds as soon as the continuation accepts one of the runs. *)
Lemma plus_accepts p acc ws rest (k : str -> str -> option A) :
  ws <> [] -> forallb p ws = true -> is_Some (k (acc ++ ws) rest) ->
  is_Some (plus p acc (ws ++ rest) k).
Proof.
  revert acc. induction ws as [|c ws IH]; intros acc Hne Hws Hk; [done|].
  simpl in *. apply andb_prop in Hws as [Hc Hws]. rewrite Hc.
  destruct ws as [|d ws].
  - simpl. destruct (plus p (acc ++ [c]) rest k); [eauto|]. exact Hk.
  - assert (H : is_Some (plus p (acc ++ [c]) ((d :: ws) ++ rest) k)).
    { apply IH; [discriminate|exact Hws|]. now rewrite <-app_assoc. }
    destruct H as [r ->]. eauto.
Qed.

End Pattern.

(** The longest run of a class at the start of a text. *)
Lemma longest_run (p : char -> bool) (s : str) :
  exists run rest,
    s = run ++ rest /\ forallb p run = true /\
    (rest = [] \/ exists d r, rest = d :: r /\ p d = false).
Proof.
  induction s as [|c s (run & rest & -> & Hrun & Hrest)].
  - exists [], []. auto.
  - destruct (p c) eqn:Hc.
    + exists (c :: run), rest. simpl. rewrite Hc, Hrun. auto.
    + exists [], (c :: run ++ rest). simpl.
      split; [reflexivity|]. split; [reflexivity|]. right.
      exists c, (run ++ rest). auto.
Qed.

Lemma dot_of_nonspace c : isspace c = false -> dot c = true.
Proof.
  unfold dot, NL. destruct (c =? 10) eqn:E; [|reflexivity].
  apply N.eqb_eq in E as ->. discriminate.
Qed.

(** On a text without trailing whitespace, the rule text the pattern
    captures starts with a character that is not whitespace. *)
Lemma violation_match_head line g :
  rstrip line = line -> violation_match line = Some g ->
  exists c g', g = c :: g' /\ isspace c = false.
Proof.
  intros Hfix. unfold violation_match.
  intros (s1 & -> & H)%literal_Some.
  apply plus_Some in H as (ws1 & s2 & -> & _ & _ & H & _).
  apply literal_Some in H as (s3 & -> & H).
  apply plus_Some in H as (ws2 & s4 & -> & Hne & Hws2 & H & Hno).
  apply plus_Some in H as (g0 & rest & -> & Hg & _ & [= <-] & _).
  destruct g0 as [|c g']; [done|]. exists c, g'. split; [reflexivity|].
  destruct (isspace c) eqn:Hc; [exfalso|reflexivity].
  (* a longer run of whitespace would have been accepted *)
  assert (Hs4 : rstrip ((c :: g') ++ rest) = (c :: g') ++ rest).
  { apply (rstrip_fixed_suffix (sigil ++ ws1 ++ lit "[Violation]" ++ ws2)).
    rewrite <-!app_assoc. exact Hfix. }
  destruct (longest_run isspace ((c :: g') ++ rest))
    as (run & tl & Heq & Hrun & Htl).
  destruct run as [|c0 run].
  { simpl in Heq. destruct Htl as [->|(d & r & -> & Hd)]; [discriminate|].
    injection Heq as <- _. congruence. }
  assert (Some_no : is_Some (plus isspace ([] ++ ws2) ((c0 :: run) ++ tl)
            (fun _ s4 => plus dot [] s4 (fun g _ => Some g)))).
  { apply plus_accepts; [discriminate|exact Hrun|].
    destruct Htl as [->|(d & r & -> & Hd)].
    - rewrite app_nil_r in Heq. rewrite Heq in Hs4.
      now rewrite (rstrip_fixed_all_space _ Hs4 Hrun) in Heq.
    - simpl. rewrite (dot_of_nonspace _ Hd).
      destruct (plus dot [d] r _); eauto. }
  rewrite <-Heq, Hno in Some_no. now destruct Some_no.
Qed.

(** ** The violation parser *)

Section Parser.

Import Violations.

Lemma rule_set_field f x v : rule (set_field f x v) = rule v.
Proof. now destruct f. Qed.

Lemma rule_flush st : rule (flush st) = rule (violation st).
Proof.
  unfold flush. destruct (current_field st), (current_value st); auto.
  apply rule_set_field.
Qed.

Lemma rule_step line st : rule (violation (step line st)) = rule (violation st).
Proof.
  unfold step. destruct (classify line); simpl; [apply rule_flush|].
  destruct (current_field st); simpl; [reflexivity|].
  destruct (truthy _); reflexivity.
Qed.

Lemma rule_block_loop ls st :
  rule (violation (block_loop ls st).1) = rule (violation st).
Proof.
  revert st. induction ls as [|l ls IH]; intros st; simpl; [reflexivity|].
  destruct (is_empty (strip l)); [reflexivity|].
  specialize (IH (step (strip l) st)).
  destruct (block_loop ls (step (strip l) st)) as [st' n]. simpl in *.
  rewrite IH. apply rule_step.
Qed.

(** The shape of a successful call. *)
Lemma parse_violation_block_Some lines start_idx v n :
  parse_violation_block lines start_idx = (Some v, n) ->
  exists l g,
    lines !! start_idx = Some l /\ violation_match (strip l) = Some g /\
    v = flush (block_loop (drop (S start_idx) lines)
                 (init_state (strip g))).1 /\
    n = (S start_idx +
         (block_loop (drop (S start_idx) lines) (init_state (strip g))).2)%nat.
Proof.
  unfold parse_violation_block.
  destruct (lines !! start_idx) as [l|]; [|discriminate].
  destruct (violation_match (strip l)) as [g|] eqn:Hm; [|discriminate].
  destruct (block_loop _ _) as [st k] eqn:Hb. intros [= <- <-].
  exists l, g. rewrite Hb. auto.
Qed.

End Parser.

Import Violations.

(** C8. Every violation [parse_violation_block] returns has a rule that is
    not the empty string: the text the pattern captures on the stripped
    line starts with a character that is not whitespace, so stripping it
    leaves at least that character. *)
Theorem rule_nonempty (lines : list str) (start_idx : nat)
  (v : Violation) (n : nat) :
  parse_violation_block lines start_idx = (Some v, n) -> rule v <> [].
Proof.
  intros (l & g & _ & Hm & -> & _)%parse_violation_block_Some.
  rewrite rule_flush, rule_block_loop. simpl.
  apply violation_match_head in Hm as (c & g' & -> & Hc).
  - now apply strip_nonspace_head.
  - apply strip_rstrip_fixed.
Qed.

(** ** The loop of [extract_violations] *)

Section Extract.

(** Every call on an index inside the list answers a later index. *)
Lemma parse_violation_block_next lines idx :
  (idx < length lines)%nat ->
  (idx < (parse_violation_block lines idx).2)%nat.
Proof.
  intros [l Hl]%lookup_lt_is_Some_2. unfold parse_violation_block.
  rewrite Hl. destruct (violation_match (strip l)); simpl; [|lia].
  destruct (block_loop _ _). simpl. lia.
Qed.

Lemma extract_loop_fuel fuel lines idx acc :
  (length lines - idx <= fuel)%nat ->
  is_Some (extract_loop fuel lines idx acc).
Proof.
  revert idx acc. induction fuel as [|fuel IH]; intros idx acc Hfuel; simpl.
  - destruct (idx <? length lines)%nat eqn:E; [|eauto].
    apply Nat.ltb_lt in E. lia.
  - destruct (idx <? length lines)%nat eqn:E; [|eauto].
    apply Nat.ltb_lt in E.
    pose proof (parse_violation_block_next lines idx E) as Hn.
    destruct (parse_violation_block lines idx) as [v next]. simpl in Hn.
    apply IH. lia.
Qed.

(** [extract_violations] always returns: the fuel it is given is
    enough. *)
Lemma extract_violations_total lines : is_Some (extract_violations lines).
Proof. apply extract_loop_fuel. lia. Qed.

Lemma extract_loop_no_start fuel lines idx acc :
  (forall l, l ∈ lines -> violation_match (strip l) = None) ->
  (length lines - idx <= fuel)%nat ->
  extract_loop fuel lines idx acc = Some acc.
Proof.
  intros Hno. revert idx. induction fuel as [|fuel IH]; intros idx Hfuel;
    simpl; destruct (idx <? length lines)%nat eqn:E; try reflexivity;
    apply Nat.ltb_lt in E; [lia|].
  destruct (lookup_lt_is_Some_2 lines idx E) as [l Hl].
  unfold parse_violation_block. rewrite Hl.
  rewrite (Hno l) by (eapply list_elem_of_lookup_2, Hl).
  apply IH. lia.
Qed.

End Extract.

(** C5. On a log without any violation-start line (no line that, once
    stripped, matches the pattern), [extract_violations] returns the empty
    list; it does not raise and does not run out of fuel. *)
Theorem no_start_line_no_violations (lines : list str) :
  (forall l, l ∈ lines -> violation_match (strip l) = None) ->
  extract_violations lines = Some [].
Proof. intros H. apply extract_loop_no_start; [exact H|lia]. Qed.

(** ** The block of a violation *)

Section Block.

Implicit Types (st : State) (blk done conts : list str) (f g : Field).

Lemma get_set_field_eq f x v : get_field f (set_field f x v) = Some x.
Proof. now destruct f. Qed.

Lemma get_set_field_ne f g x v :
  g <> f -> get_field g (set_field f x v) = get_field g v.
Proof. now destruct f, g. Qed.

Lemma block_loop_run ls st :
  block_loop ls st = (run (block_lines ls) st, length (block_lines ls)).
Proof.
  revert st. induction ls as [|l ls IH]; intros st; simpl; [reflexivity|].
  destruct (is_empty (strip l)); [reflexivity|].
  now rewrite IH.
Qed.

Lemma block_lines_nonempty ls : Forall (fun x => x <> []) (block_lines ls).
Proof.
  induction ls as [|l ls IH]; simpl; [constructor|].
  destruct (is_empty (strip l)) eqn:E; [constructor|].
  constructor; [now apply is_empty_false|exact IH].
Qed.

Lemma block_lines_stripped ls :
  Forall (fun x => strip x = x) (block_lines ls).
Proof.
  induction ls as [|l ls IH]; simpl; [constructor|].
  destruct (is_empty (strip l)); constructor; [apply strip_idem|exact IH].
Qed.

Lemma Inv_init r : Inv [] (init_state r).
Proof.
  split; simpl.
  - intros _. split; [constructor|]. intros g. now destruct g.
  - discriminate.
  - intros g s. now destruct g.
Qed.

Lemma Fallback_app done x s : Fallback done s -> Fallback (done ++ [x]) s.
Proof. intros [rest [-> H]]. now exists (rest ++ [x]). Qed.

Lemma Closed_app done x g s : Closed done g s -> Closed (done ++ [x]) g s.
Proof.
  intros (l1 & lab & conts & lab' & l2 & -> & H).
  exists l1, lab, conts, lab', (l2 ++ [x]).
  rewrite <-!app_assoc. simpl. now rewrite <-app_assoc.
Qed.

(** A value that is explained by the lines read so far stays explained
    when one more line is read. *)
Lemma explained_app done x g s :
  (g = FReason /\ Fallback done s) \/ Closed done g s ->
  (g = FReason /\ Fallback (done ++ [x]) s) \/ Closed (done ++ [x]) g s.
Proof.
  intros [[-> H]|H]; [left|right];
    auto using Fallback_app, Closed_app.
Qed.

Lemma flush_no_field st : current_field st = None -> flush st = violation st.
Proof. intros H. unfold flush. now rewrite H. Qed.

Lemma Inv_step done st x :
  Forall (fun l => l <> []) done ->
  Inv done st -> Inv (done ++ [x]) (step x st).
Proof.
  intros Hall [Hnone Hsome Hval]. unfold step.
  destruct (classify x) as [f'|] eqn:Hcx.
  - (* a label line: the buffer is flushed *)
    split; simpl.
    + discriminate.
    + intros f [= <-]. exists done, x, []. auto.
    + intros g s.
      destruct (current_field st) as [f|] eqn:Hcf;
        [|rewrite (flush_no_field _ Hcf);
          intros H; now apply explained_app, Hval].
      unfold flush. rewrite Hcf.
      destruct (Hsome f eq_refl) as (l1 & lab & conts & -> & Hlab & Hc & ->).
      destruct (decide (g = f)) as [->|Hne].
      * rewrite get_set_field_eq. intros [= <-]. right.
        exists l1, lab, conts, x, []. rewrite <-app_assoc. simpl.
        repeat split; auto. unfold unlabeled. congruence.
      * rewrite get_set_field_ne by exact Hne.
        intros H. now apply explained_app, Hval.
  - destruct (current_field st) as [f|] eqn:Hcf.
    + (* a continuation line of the field being read *)
      split; simpl.
      * discriminate.
      * intros ? [= <-].
        destruct (Hsome f eq_refl) as (l1 & lab & conts & -> & Hlab & Hc & ->).
        exists l1, lab, (conts ++ [x]). rewrite <-app_assoc. simpl.
        repeat split; auto. apply Forall_app. split; [exact Hc|].
        now constructor.
      * intros g s H. now apply explained_app, Hval.
    + (* no field yet: the fallback, or a line that is dropped *)
      destruct (Hnone eq_refl) as [Hdone Hget].
      pose proof (Hget FReason) as Hreason. simpl in Hreason.
      destruct done as [|x0 done]; simpl in Hreason; rewrite Hreason.
      * simpl. split; simpl.
        -- intros _. split; [now repeat constructor|].
           intros g. specialize (Hget g). now destruct g.
        -- discriminate.
        -- intros g s Hg. left.
           specialize (Hget g). destruct g; simpl in *; try congruence.
           injection Hg as <-. split; [reflexivity|]. now exists [].
      * assert (Hx0 : truthy (Some x0) = true).
        { apply Forall_cons in Hall as [Hx0 _]. now destruct x0. }
        rewrite Hx0. simpl. split; simpl.
        -- intros _. split; [|exact Hget].
           apply (Forall_app _ (x0 :: done)).
           split; [exact Hdone|now constructor].
        -- discriminate.
        -- intros g s H. now apply (explained_app (x0 :: done)), Hval.
Qed.

End Block.

Section BlockValues.

Implicit Types (st : State) (blk done conts : list str) (f g : Field).

Lemma Inv_run r blk :
  Forall (fun l => l <> []) blk -> Inv blk (run blk (init_state r)).
Proof.
  induction blk as [|x blk IH] using rev_ind; intros Hall.
  - apply Inv_init.
  - apply Forall_app in Hall as [Hall _]. unfold run. rewrite foldl_snoc.
    apply Inv_step; [exact Hall|]. now apply IH.
Qed.

(** Every value of the dictionary the parser returns is the fallback line
    or the flushed buffer of a segment of its field. *)
Lemma flushed_values r blk g s :
  Forall (fun l => l <> []) blk ->
  get_field g (flush (run blk (init_state r))) = Some s ->
  (g = FReason /\ Fallback blk s) \/
  exists lab conts,
    Segment blk g lab conts /\ s = joined (label_text g lab :: conts).
Proof.
  intros Hall. destruct (Inv_run r blk Hall) as [_ Hsome Hval].
  assert (closed : get_field g (violation (run blk (init_state r))) = Some s ->
    (g = FReason /\ Fallback blk s) \/
    exists lab conts,
      Segment blk g lab conts /\ s = joined (label_text g lab :: conts)).
  { intros [?|(l1 & lab & conts & lab' & l2 & ? & ? & ? & ? & ?)]%Hval;
      [now left|right].
    exists lab, conts. split; [|assumption].
    exists l1, (lab' :: l2). repeat split; auto.
    simpl. now intros x [= <-]. }
  unfold flush.
  destruct (current_field (run blk (init_state r))) as [f|]; [|exact closed].
  destruct (Hsome f eq_refl) as (l1 & lab & conts & Heq & Hlab & Hc & ->).
  destruct (decide (g = f)) as [->|Hne].
  - rewrite get_set_field_eq. intros [= <-]. right.
    exists lab, conts. split; [|reflexivity].
    exists l1, []. rewrite app_nil_r. repeat split; auto. discriminate.
  - now rewrite get_set_field_ne.
Qed.

Lemma classify_startswith line f :
  classify line = Some f -> startswith line (label f) = true.
Proof.
  unfold classify.
  repeat (match goal with
          | |- context [if ?b then _ else _] => destruct b eqn:?
          end; [now intros [= <-]|]).
  discriminate.
Qed.

Lemma replace_from_absent old new s :
  contains s old = false -> replace_from old new 0 s = s.
Proof.
  induction s as [|c s IH]; [reflexivity|]. cbn [contains replace_from].
  intros [H1 H2]%orb_false_elim. rewrite H1. f_equal. auto.
Qed.

Lemma replace_from_skip old new k s :
  replace_from old new k s = replace_from old new 0 (drop k s).
Proof.
  revert s. induction k as [|k IH]; intros [|c s]; simpl; auto.
Qed.

(** On a line that starts with [old] and does not hold it again,
    [replace] leaves the text after [old]. *)
Lemma replace_prefix_once old s :
  old <> [] -> startswith s old = true ->
  contains (drop (length old) s) old = false ->
  replace s old [] = drop (length old) s.
Proof.
  intros Hold Hs Hc. unfold replace.
  destruct old as [|a old]; [done|]. destruct s as [|c s]; [discriminate|].
  cbn [replace_from]. rewrite Hs. simpl length. simpl.
  rewrite Nat.sub_0_r, replace_from_skip.
  now apply replace_from_absent.
Qed.

Lemma label_text_once f lab :
  classify lab = Some f ->
  contains (after_label f lab) (label f) = false ->
  label_text f lab = strip (after_label f lab).
Proof.
  intros Hlab Hc. unfold label_text, after_label in *.
  rewrite replace_prefix_once; auto using classify_startswith.
  now destruct f.
Qed.

End BlockValues.

(** C2, as the code has it.  Every value of a field of the violation
    [parse_violation_block] returns is either the no-label fallback (the
    first line of the block, for [reason]) or the buffer of a segment of
    that field, flushed: the text of the label line without its label
    (the stripped text after the label, when the label does not occur
    again in the line) and the continuation lines of the segment, each of
    them stripped when it was read, joined by one newline and stripped as
    a whole. *)
Theorem flushed_field_is_joined_stripped_lines (lines : list str)
  (start_idx : nat) (v : Violation) (n : nat) (f : Field) (s : str) :
  parse_violation_block lines start_idx = (Some v, n) ->
  get_field f v = Some s ->
  let blk := block_lines (drop (S start_idx) lines) in
  (f = FReason /\ Fallback blk s) \/
  exists lab conts,
    Segment blk f lab conts /\
    s = strip (join [NL] (label_text f lab :: conts)) /\
    (contains (after_label f lab) (label f) = false ->
     label_text f lab = strip (after_label f lab)).
Proof.
  intros (l & g & _ & _ & -> & _)%parse_violation_block_Some.
  rewrite block_loop_run. simpl.
  intros [?|(lab & conts & Hseg & ->)]%flushed_values;
    [now left| |apply block_lines_nonempty].
  right. exists lab, conts. split; [exact Hseg|]. split; [reflexivity|].
  apply label_text_once. now destruct Hseg as (? & ? & ? & ? & ?).
Qed.

Section EmptyValues.

Lemma forallb_join_space sep x l :
  forallb isspace (join sep (x :: l)) = true ->
  forallb isspace x = true /\ Forall (fun c => forallb isspace c = true) l.
Proof.
  revert x. induction l as [|y l IH]; intros x; cbn [join].
  - intros H. split; [exact H|constructor].
  - rewrite !forallb_app. intros [Hx [_ H]%andb_prop]%andb_prop.
    destruct (IH _ H). split; [exact Hx|]. now constructor.
Qed.

(** A flushed buffer is the empty string only when it holds nothing but
    an empty first text. *)
Lemma joined_nil text conts :
  strip text = text ->
  Forall (fun c => c <> []) conts -> Forall (fun c => strip c = c) conts ->
  joined (text :: conts) = [] -> text = [] /\ conts = [].
Proof.
  intros Ht Hne Hst [Hx Hc]%strip_nil_iff%forallb_join_space.
  split; [rewrite <-Ht; now apply strip_nil_iff|].
  destruct conts as [|c conts]; [reflexivity|exfalso].
  apply Forall_cons in Hne as [Hne _]. apply Forall_cons in Hst as [Hst _].
  apply Forall_cons in Hc as [Hc _]. apply Hne. rewrite <-Hst.
  now apply strip_nil_iff.
Qed.

Lemma Segment_conts blk f lab conts (P : str -> Prop) :
  Segment blk f lab conts -> Forall P blk -> Forall P conts.
Proof.
  intros (l1 & l2 & -> & _) H.
  apply Forall_app in H as [_ H]. apply Forall_cons in H as [_ H].
  now apply Forall_app in H as [H _].
Qed.

End EmptyValues.

(** C4, as the code has it.  A field of the violation
    [parse_violation_block] returns is [None] or a string without
    whitespace at either end; it is the empty string only where the block
    has a label line of that field with no text besides the label and no
    continuation line. *)
Theorem field_empty_only_for_bare_label (lines : list str)
  (start_idx : nat) (v : Violation) (n : nat) (f : Field) (s : str) :
  parse_violation_block lines start_idx = (Some v, n) ->
  get_field f v = Some s ->
  strip s = s /\
  (s = [] ->
   exists lab,
     Segment (block_lines (drop (S start_idx) lines)) f lab [] /\
     label_text f lab = []).
Proof.
  intros (l & g & _ & _ & -> & _)%parse_violation_block_Some.
  rewrite block_loop_run. simpl.
  set (blk := block_lines (drop (S start_idx) lines)).
  pose proof (block_lines_nonempty (drop (S start_idx) lines)) as Hne.
  pose proof (block_lines_stripped (drop (S start_idx) lines)) as Hst.
  fold blk in Hne, Hst.
  intros [[-> (rest & Hblk & _)]|(lab & conts & Hseg & ->)]%flushed_values;
    [| |exact Hne].
  - rewrite Hblk in Hne, Hst.
    apply Forall_cons in Hne as [Hne _]. apply Forall_cons in Hst as [Hst _].
    split; [exact Hst|]. intros ->. done.
  - split; [apply strip_idem|]. intros Hnil.
    apply joined_nil in Hnil as [Ht ->].
    + now exists lab.
    + apply strip_idem.
    + eapply Segment_conts; eauto.
    + eapply Segment_conts; eauto.
Qed.

Section Dropped.

Implicit Types (st : State) (blk ds : list str).

(** Without a current field and with [reason] set, the lines without a
    label only grow a buffer that belongs to no field. *)
Lemma run_unlabeled ds st :
  current_field st = None -> truthy (reason (violation st)) = true ->
  Forall unlabeled ds ->
  violation (run ds st) = violation st /\
  current_field (run ds st) = None /\
  current_value (run ds st) = current_value st ++ ds.
Proof.
  revert st. induction ds as [|d ds IH]; intros st Hcf Hr Hds.
  - simpl. now rewrite app_nil_r.
  - apply Forall_cons in Hds as [Hd Hds]. simpl.
    assert (Hstep : step d st =
      {| violation := violation st; current_field := None;
         current_value := current_value st ++ [d] |}).
    { unfold step. rewrite Hd, Hcf, Hr. reflexivity. }
    rewrite Hstep.
    destruct (IH {| violation := violation st; current_field := None;
                    current_value := current_value st ++ [d] |}
                eq_refl Hr Hds) as (-> & -> & ->).
    simpl. now rewrite <-app_assoc.
Qed.

(** Such a buffer is never flushed: what is returned does not depend on
    it. *)
Lemma run_buffer_irrelevant blk st1 st2 :
  violation st1 = violation st2 ->
  current_field st1 = None -> current_field st2 = None ->
  truthy (reason (violation st1)) = true ->
  flush (run blk st1) = flush (run blk st2).
Proof.
  revert st1 st2. induction blk as [|x blk IH]; intros st1 st2 Hv H1 H2 Hr.
  - simpl. unfold flush. now rewrite H1, H2.
  - simpl. destruct (classify x) as [f|] eqn:Hx.
    + assert (Heq : step x st1 = step x st2).
      { unfold step, flush. now rewrite Hx, H1, H2, Hv. }
      now rewrite Heq.
    + apply IH; unfold step; rewrite Hx, ?H1, ?H2, <-?Hv, Hr; auto.
Qed.

Lemma block_lines_app_nonblank ds rest :
  Forall (fun l => strip l <> []) ds ->
  block_lines (ds ++ rest) = map strip ds ++ block_lines rest.
Proof.
  induction 1 as [|d ds Hd _ IH]; simpl; [reflexivity|].
  apply is_empty_false in Hd. now rewrite Hd, IH.
Qed.

Lemma run_app blk1 blk2 st : run (blk1 ++ blk2) st = run blk2 (run blk1 st).
Proof. apply foldl_app. Qed.

Lemma run_cons x blk st : run (x :: blk) st = run blk (step x st).
Proof. reflexivity. Qed.

End Dropped.

(** C10. In a block whose first line carries no label (so that the
    fallback sets [reason]), the lines without a label that follow it
    before the first label line leave no trace: the violation returned is
    the one returned when these lines are taken out of the log. *)
Theorem lines_after_fallback_are_dropped (before rest dropped : list str)
  (start_line first : str) :
  is_Some (violation_match (strip start_line)) ->
  strip first <> [] -> unlabeled (strip first) ->
  Forall (fun l => strip l <> [] /\ unlabeled (strip l)) dropped ->
  exists v,
    (parse_violation_block
       (before ++ start_line :: first :: dropped ++ rest)
       (length before)).1 = Some v /\
    (parse_violation_block
       (before ++ start_line :: first :: rest) (length before)).1 = Some v.
Proof.
  intros [g Hg] Hfirst Hun Hdropped.
  assert (Hlook : forall tl,
    (before ++ start_line :: tl) !! length before = Some start_line).
  { intros tl. now rewrite list_lookup_middle. }
  assert (Hdrop : forall tl,
    drop (S (length before)) (before ++ start_line :: tl) = tl).
  { intros tl. rewrite cons_middle, app_assoc.
    apply drop_app_length'. rewrite length_app. simpl. lia. }
  unfold parse_violation_block. rewrite !Hlook, Hg, !Hdrop, !block_loop_run.
  simpl fst.
  assert (Hfirst' : is_empty (strip first) = false)
    by now apply is_empty_false.
  set (s1 := {| violation := set_field FReason (strip first)
                               (new_violation (strip g));
                current_field := None; current_value := [] |}).
  assert (Hs1 : step (strip first) (init_state (strip g)) = s1).
  { unfold step. now rewrite Hun. }
  assert (Hr : truthy (reason (violation s1)) = true).
  { simpl. now destruct (strip first). }
  cbn [block_lines]. rewrite Hfirst'.
  rewrite block_lines_app_nonblank
    by (eapply Forall_impl; [exact Hdropped|]; now intros l [H _]).
  rewrite !run_cons, Hs1, run_app.
  destruct (run_unlabeled (map strip dropped) s1 eq_refl Hr)
    as (Hv & Hcf & _).
  { apply Forall_map. eapply Forall_impl; [exact Hdropped|].
    now intros l [_ H]. }
  eexists. split; [|reflexivity]. f_equal.
  apply run_buffer_irrelevant; auto. now rewrite Hv.
Qed.

(** ** The image reference scanner *)

Section Scanner.

Import ImageRefs.

Implicit Types (st : Scan) (acc rs : list str).

Lemma Good_init : Good init_scan.
Proof. now split. Qed.

Lemma listed_Good r st :
  Good st ->
  Good (listed r st) /\
  in_components (listed r st) = in_components st /\
  image_refs (listed r st)
  = (if is_empty r then image_refs st
     else if bool_decide (r ∈ image_refs st) then image_refs st
          else image_refs st ++ [r]) /\
  (is_empty r = false -> r ∈ seen_refs (listed r st)).
Proof.
  intros [Hc Hs]. unfold listed.
  destruct (is_empty r) eqn:Hr; simpl; [repeat split; auto; done|].
  destruct (bool_decide (r ∉ seen_refs st)) eqn:Hin.
  - apply bool_decide_eq_true in Hin. simpl.
    rewrite Hs, elem_of_list_to_set in Hin.
    rewrite (bool_decide_eq_false_2 _ Hin).
    repeat split; auto.
    + simpl. rewrite Hs, list_to_set_app_L. simpl. now rewrite union_empty_r_L.
    + intros _. apply elem_of_union_r. now apply elem_of_singleton.
  - apply bool_decide_eq_false in Hin. apply dec_stable in Hin.
    pose proof Hin as Hin'. rewrite Hs, elem_of_list_to_set in Hin'.
    rewrite (bool_decide_eq_true_2 _ Hin').
    repeat split; auto.
Qed.

Lemma omap_line_ref_cons line ls :
  omap line_ref (line :: ls)
  = match line_ref line with
    | Some r => r :: omap line_ref ls
    | None => omap line_ref ls
    end.
Proof. reflexivity. Qed.

Lemma line_ref_listed line :
  startswith (strip line) (lit "ImageRef:") = true ->
  line_ref line = if is_empty (ref_of (strip line)) then None
                  else Some (ref_of (strip line)).
Proof. intros H. unfold line_ref. now rewrite H. Qed.

Lemma line_ref_other line :
  startswith (strip line) (lit "ImageRef:") = false -> line_ref line = None.
Proof. intros H. unfold line_ref. now rewrite H. Qed.

Lemma scan_loop_spec start ls i st :
  Good st ->
  Good (scan_loop start ls i st) /\
  image_refs (scan_loop start ls i st)
  = dedup_onto (image_refs st) (omap line_ref (header start ls i)).
Proof.
  revert i st. induction ls as [|line ls IH]; intros i st HG;
    [now split|].
  cbn [scan_loop header]. cbv zeta.
  destruct (startswith (strip line) (lit "Results:")) eqn:HR; [now split|].
  destruct (startswith (strip line) (lit "STEP-") && (start <? i)%nat);
    [now split|].
  rewrite omap_line_ref_cons.
  destruct (startswith (strip line) (lit "ImageRef:")) eqn:HI.
  - rewrite (line_ref_listed _ HI). fold (listed (ref_of (strip line)) st).
    destruct (listed_Good (ref_of (strip line)) st HG)
      as (HG1 & Hin1 & Hrefs & Hseen).
    set (st1 := listed (ref_of (strip line)) st) in *.
    assert (Hnext : forall st', Good st' -> image_refs st' = image_refs st1 ->
      Good (scan_loop start ls (S i) st') /\
      image_refs (scan_loop start ls (S i) st')
      = dedup_onto (image_refs st)
          (match (if is_empty (ref_of (strip line)) then None
                  else Some (ref_of (strip line))) with
           | Some r => r :: omap line_ref (header start ls (S i))
           | None => omap line_ref (header start ls (S i))
           end)).
    { intros st' HG' Heq. destruct (IH (S i) st' HG') as [H1 H2].
      split; [exact H1|]. rewrite H2, Heq, Hrefs.
      now destruct (is_empty (ref_of (strip line))). }
    destruct (startswith (strip line) (lit "COMPONENTS:")).
    + apply Hnext; [|reflexivity]. destruct HG1. now split.
    + destruct (in_components st1); [|now apply Hnext].
      destruct (negb (is_empty (ref_of (strip line)))
                && bool_decide (ref_of (strip line) ∉ seen_refs st1)) eqn:E;
        [|now apply Hnext].
      apply andb_prop in E as [E1 E2]. apply bool_decide_eq_true in E2.
      apply negb_true_iff in E1. now specialize (Hseen E1).
  - rewrite (line_ref_other _ HI).
    assert (Hnext : forall st', Good st' -> image_refs st' = image_refs st ->
      Good (scan_loop start ls (S i) st') /\
      image_refs (scan_loop start ls (S i) st')
      = dedup_onto (image_refs st) (omap line_ref (header start ls (S i)))).
    { intros st' HG' Heq. destruct (IH (S i) st' HG') as [H1 H2].
      split; [exact H1|]. now rewrite H2, Heq. }
    destruct (startswith (strip line) (lit "COMPONENTS:")).
    + apply Hnext; [|reflexivity]. destruct HG. now split.
    + destruct (in_components st); [|now apply Hnext].
      destruct (is_empty (strip line) || _); [|now apply Hnext].
      destruct HG as [Hc Hs]. apply Hnext.
      * split; [reflexivity|]. simpl. now rewrite Hc, app_nil_r.
      * simpl. now rewrite Hc, app_nil_r.
Qed.

End Scanner.

Section FirstAppearance.

Import ImageRefs.

Implicit Types (acc rs l : list str) (x y r : str).

Lemma dedup_onto_prefix acc rs : exists ext, dedup_onto acc rs = acc ++ ext.
Proof.
  revert acc. induction rs as [|r rs IH]; intros acc; simpl.
  - exists []. now rewrite app_nil_r.
  - destruct (bool_decide (r ∈ acc)); [apply IH|].
    destruct (IH (acc ++ [r])) as [ext ->]. exists (r :: ext).
    now rewrite <-app_assoc.
Qed.

Lemma dedup_onto_elem acc rs x :
  x ∈ dedup_onto acc rs <-> x ∈ acc \/ x ∈ rs.
Proof.
  revert acc. induction rs as [|r rs IH]; intros acc; simpl.
  - rewrite elem_of_nil. tauto.
  - rewrite IH, elem_of_cons. case_bool_decide as Hr.
    + split; [tauto|]. intros [?|[->|?]]; auto.
    + rewrite elem_of_app, list_elem_of_singleton. tauto.
Qed.

Lemma dedup_onto_NoDup acc rs : NoDup acc -> NoDup (dedup_onto acc rs).
Proof.
  revert acc. induction rs as [|r rs IH]; intros acc Hacc; simpl; [done|].
  apply IH. case_bool_decide as Hr; [done|].
  apply NoDup_app. split; [done|]. split; [|apply NoDup_singleton].
  intros x Hx Hx'. apply list_elem_of_singleton in Hx' as ->. done.
Qed.

(** Order of first appearance: a value that [dedup_onto] has added stands
    after the values of [acc] and after the values that appear in [rs]
    before its own first appearance. *)
Lemma dedup_onto_order acc rs i j x y :
  NoDup acc ->
  dedup_onto acc rs !! i = Some x -> dedup_onto acc rs !! j = Some y ->
  (i < j)%nat -> (length acc <= j)%nat ->
  x ∈ acc \/
  exists n, rs !! n = Some x /\ forall m, rs !! m = Some y -> (n < m)%nat.
Proof.
  revert acc. induction rs as [|r rs IH]; intros acc Hacc; simpl.
  - intros Hi _ Hij Hj. left. eapply list_elem_of_lookup_2, Hi.
  - intros Hi Hj Hij Hlen.
    pose proof (dedup_onto_NoDup _ rs Hacc) as Hnd.
    assert (Hacc' : NoDup (acc ++ [r]) \/ r ∈ acc).
    { destruct (decide (r ∈ acc)); [now right|left].
      apply NoDup_app. split; [done|]. split; [|apply NoDup_singleton].
      intros z Hz Hz'. apply list_elem_of_singleton in Hz' as ->. done. }
    case_bool_decide as Hr.
    + (* [r] is listed already *)
      destruct (IH acc Hacc Hi Hj Hij Hlen) as [?|(n & Hn & Hfirst)];
        [now left|right].
      exists (S n). split; [exact Hn|]. intros [|m] Hm; simpl in Hm.
      * exfalso. injection Hm as ->.
        destruct (dedup_onto_prefix acc rs) as [ext Hext].
        apply list_elem_of_lookup_1 in Hr as [k Hk].
        pose proof (lookup_lt_Some _ _ _ Hk) as Hlt.
        assert (Hk' : dedup_onto acc rs !! k = Some y)
          by (rewrite Hext; now apply lookup_app_l_Some).
        pose proof (NoDup_lookup _ _ _ _ (dedup_onto_NoDup _ rs Hacc) Hk' Hj).
        lia.
      * specialize (Hfirst _ Hm). lia.
    + (* [r] is added at the end of [acc] *)
      destruct Hacc' as [Hacc'|?]; [|done].
      pose proof (dedup_onto_NoDup _ rs Hacc') as Hnd'.
      destruct (dedup_onto_prefix (acc ++ [r]) rs) as [ext Hext].
      assert (Hr_at : dedup_onto (acc ++ [r]) rs !! length acc = Some r).
      { rewrite Hext, <-app_assoc. now apply list_lookup_middle. }
      destruct (decide (j = length acc)) as [->|Hne].
      * left. rewrite Hext, <-app_assoc, lookup_app_l in Hi by lia.
        eapply list_elem_of_lookup_2, Hi.
      * assert (Hlen' : (length (acc ++ [r]) <= j)%nat)
          by (rewrite length_app; simpl; lia).
        destruct (IH _ Hacc' Hi Hj Hij Hlen') as [Hx|(n & Hn & Hfirst)].
        -- apply elem_of_app in Hx as [?|Hx]; [now left|right].
           apply list_elem_of_singleton in Hx as ->.
           exists 0%nat. split; [reflexivity|]. intros [|m] Hm; [|lia].
           exfalso. injection Hm as ->.
           pose proof (NoDup_lookup _ _ _ _ Hnd' Hi Hj). lia.
        -- right. exists (S n). split; [exact Hn|].
           intros [|m] Hm; simpl in Hm.
           ++ exfalso. injection Hm as ->.
              pose proof (NoDup_lookup _ _ _ _ Hnd' Hr_at Hj). lia.
           ++ specialize (Hfirst _ Hm). lia.
Qed.

Lemma dedup_onto_nil rs : dedup_onto [] rs = [] <-> rs = [].
Proof.
  split; [|now intros ->].
  destruct rs as [|r rs]; [done|]. intros H.
  assert (Hin : r ∈ dedup_onto [] (r :: rs))
    by (apply dedup_onto_elem; right; apply elem_of_cons; now left).
  rewrite H in Hin. now apply elem_of_nil in Hin.
Qed.

(** The marker is found exactly when some line is the marker. *)
Lemma find_marker_None marker lines i :
  find_marker marker lines i = None <->
  forall ln : str, ln ∈ lines -> strip ln <> marker.
Proof.
  revert i. induction lines as [|ln0 lines IH]; intros i; simpl.
  - split; [|done]. intros _ ln Hl. now apply elem_of_nil in Hl.
  - case_bool_decide as Hl.
    + split; [done|]. intros H. exfalso. apply (H ln0); [|exact Hl].
      apply elem_of_cons. now left.
    + rewrite IH. split.
      * intros H x [->|Hx]%elem_of_cons; auto.
      * intros H x Hx. apply H, elem_of_cons. now right.
Qed.

(** What [extract_image_refs] returns, in terms of the references of the
    section. *)
Lemma extract_image_refs_spec lines :
  extract_image_refs lines =
  match find_marker (lit "STEP-VALIDATE") lines 0 with
  | None =>
      Raise (ValueError (lit "STEP-VALIDATE section not found in log file"))
  | Some _ =>
      match dedup_onto [] (section_refs lines) with
      | [] =>
          Raise (ValueError
                   (lit "No image references found in STEP-VALIDATE section"))
      | refs => Ok refs
      end
  end.
Proof.
  unfold extract_image_refs, section_refs.
  destruct (find_marker _ lines 0) as [start|]; [|reflexivity].
  destruct (scan_loop_spec start (drop start lines) start init_scan Good_init)
    as [[Hc _] Hrefs].
  rewrite Hc, app_nil_r, Hrefs. simpl.
  now destruct (dedup_onto [] _).
Qed.

End FirstAppearance.

Import ImageRefs.

(** C6. The list [extract_image_refs] returns has no duplicates, holds
    exactly the references of the section, and lists them in the order of
    their first appearance in it: of two values of the result, the first
    appearance of the earlier one in the section comes before every
    appearance of the later one.  A reference that appears both on a
    standalone [ImageRef:] line and under [COMPONENTS:] is in
    [section_refs] twice, so it is listed once, where it first appears. *)
Theorem image_refs_distinct_in_first_appearance_order (lines : list str)
  (refs : list str) :
  extract_image_refs lines = Ok refs ->
  NoDup refs /\
  (forall x, x ∈ refs <-> x ∈ section_refs lines) /\
  (forall i j x y,
     refs !! i = Some x -> refs !! j = Some y -> (i < j)%nat ->
     exists n,
       section_refs lines !! n = Some x /\
       forall m, section_refs lines !! m = Some y -> (n < m)%nat).
Proof.
  rewrite extract_image_refs_spec.
  destruct (find_marker _ lines 0); [|discriminate].
  destruct (dedup_onto [] (section_refs lines)) as [|r l] eqn:E;
    [discriminate|]. intros [= <-]. rewrite <-E.
  split; [apply dedup_onto_NoDup, NoDup_nil_2|]. split.
  - intros x. rewrite dedup_onto_elem, elem_of_nil. tauto.
  - intros i j x y Hi Hj Hij.
    destruct (dedup_onto_order [] (section_refs lines) i j x y)
      as [Hx|?]; auto using NoDup_nil_2; [simpl; lia|].
    now apply elem_of_nil in Hx.
Qed.

(** X20. [extract_image_refs] raises [ValueError] exactly when no line is
    the [STEP-VALIDATE] marker or no line the loop reads (see [header]:
    the line right after the marker is read even when it starts with
    [STEP-]) lists a reference, and a list it returns is never empty. *)
Theorem image_refs_error_iff (lines : list str) :
  ((exists msg, extract_image_refs lines = Raise (ValueError msg)) <->
   (forall l, l ∈ lines -> strip l <> lit "STEP-VALIDATE") \/
   section_refs lines = []) /\
  extract_image_refs lines <> Ok [].
Proof.
  rewrite extract_image_refs_spec.
  pose proof (find_marker_None (lit "STEP-VALIDATE") lines 0) as Hm.
  destruct (find_marker _ lines 0) as [start|].
  - pose proof (dedup_onto_nil (section_refs lines)) as Hnil.
    destruct (dedup_onto [] (section_refs lines)) as [|r l].
    + split; [|discriminate]. split; [|eauto].
      intros _. right. now apply Hnil.
    + split; [|discriminate]. split; [now intros [? ?]|].
      intros [H|H]; [|now apply Hnil in H].
      now apply Hm in H.
  - split; [|discriminate]. split; [|eauto]. intros _. left. now apply Hm.
Qed.

(** *** The loop against the section of the comments *)

Section Described.

Import ImageRefs.

(** Past the line that follows the marker, the loop stops where the
    comments say. *)
Lemma header_described start ls i :
  (start < i)%nat -> header start ls i = described_header ls.
Proof.
  revert i. induction ls as [|line rest IH]; intros i Hi; [reflexivity|].
  cbn [header described_header].
  apply Nat.ltb_lt in Hi as Hlt. rewrite Hlt, andb_true_r.
  rewrite (IH (S i)); [reflexivity|lia].
Qed.

(** The two differ on the line that follows the marker only: when it
    does not start with [STEP-], the loop reads the section of the
    comments. *)
Lemma section_refs_described lines :
  (forall start l,
      find_marker (lit "STEP-VALIDATE") lines 0 = Some start ->
      lines !! start = Some l ->
      startswith (strip l) (lit "STEP-") = false) ->
  section_refs lines = described_section_refs lines.
Proof.
  intros H. unfold section_refs, described_section_refs.
  destruct (find_marker _ lines 0) as [start|] eqn:E; [|reflexivity].
  f_equal. specialize (H start).
  destruct (drop start lines) as [|l rest] eqn:D; [reflexivity|].
  assert (Hl : lines !! start = Some l).
  { rewrite <-(Nat.add_0_r start), <-lookup_drop, D. reflexivity. }
  specialize (H l eq_refl Hl).
  cbn [header described_header]. rewrite H, andb_false_l.
  rewrite (header_described start rest (S start)); [reflexivity|lia].
Qed.

End Described.

(** ** The components extractor *)

Section Normalize.

Import Components.

Variable loads : str -> option pyval.

Lemma has_key_dict key d :
  has_key key (PDict d) = Ok (bool_decide (is_Some (lookup key d))).
Proof. reflexivity. Qed.

(** On a dictionary, [normalize] looks at the plural key first. *)
Lemma normalize_dict d :
  normalize (PDict d) =
  match lookup (lit "components") d with
  | Some components =>
      if truth components then Ok components
      else Raise (ValueError (lit "Components array is empty"))
  | None =>
      match lookup (lit "component") d with
      | Some c => Ok (PList [c])
      | None =>
          Raise (ValueError
                   (lit "No 'components' or 'component' key found in JSON block"))
      end
  end.
Proof.
  unfold normalize. rewrite !has_key_dict. cbn [getitem].
  destruct (lookup (lit "components") d) as [v|].
  - rewrite bool_decide_eq_true_2 by eauto. now destruct (truth v).
  - rewrite bool_decide_eq_false_2 by (now intros [? ?]).
    destruct (lookup (lit "component") d) as [c|].
    + now rewrite bool_decide_eq_true_2 by eauto.
    + now rewrite bool_decide_eq_false_2 by (now intros [? ?]).
Qed.

(** Whatever the parsed document is, a value [normalize] returns is
    true: it is not an empty list. *)
Lemma normalize_truth data v : normalize data = Ok v -> truth v = true.
Proof.
  unfold normalize.
  destruct (has_key (lit "components") data) as [[|]|]; [| |discriminate].
  - destruct (getitem (lit "components") data) as [c|]; [|discriminate].
    destruct (truth c) eqn:E; simpl; [now intros [= <-]|discriminate].
  - destruct (has_key (lit "component") data) as [[|]|]; try discriminate.
    destruct (getitem (lit "component") data); [|discriminate].
    now intros [= <-].
Qed.

End Normalize.

Import Components.

(** C9. On a log whose components block parses to a JSON object:
    with the plural key, [extract_components] returns the array under it
    when it is not empty and raises when it is; with the singular key
    (the plural key is looked at first), the one-element list of the
    object under it; with neither key, it raises.  Whatever the log and
    the parser, it never returns an empty list. *)
Theorem components_normalized (loads : str -> option pyval)
  (lines : list str) (json_start_idx : nat) (d : list (str * pyval)) :
  find_json_start lines 0 = Some json_start_idx ->
  loads (json_str lines json_start_idx) = Some (PDict d) ->
  (forall c cs,
     lookup (lit "components") d = Some (PList (c :: cs)) ->
     extract_components loads lines = Ok (PList (c :: cs))) /\
  (lookup (lit "components") d = Some (PList []) ->
   extract_components loads lines
   = Raise (ValueError (lit "Components array is empty"))) /\
  (forall c,
     lookup (lit "components") d = None ->
     lookup (lit "component") d = Some c ->
     extract_components loads lines = Ok (PList [c])) /\
  (lookup (lit "components") d = None ->
   lookup (lit "component") d = None ->
   exists msg, extract_components loads lines = Raise (ValueError msg)) /\
  extract_components loads lines <> Ok (PList []).
Proof.
  intros Hstart Hloads. unfold extract_components.
  rewrite Hstart, Hloads, normalize_dict.
  repeat split.
  - now intros c cs ->.
  - now intros ->.
  - now intros c -> ->.
  - intros -> ->. eauto.
  - rewrite <-normalize_dict. now intros H%normalize_truth.
Qed.

(** ** The correlator *)

Section Match.

Import Correlator.

Implicit Types (ref img : str) (c : Component) (comps : list Component).

Lemma image_matches_iff ref img :
  image_matches ref (digest_of ref) img = true <->
  Exact ref img \/ SameDigest ref img \/ NameAndDigest ref img.
Proof.
  unfold image_matches, Exact, SameDigest, NameAndDigest.
  case_bool_decide as He; [tauto|].
  destruct (digest_of ref) as [d|] eqn:Hd.
  - destruct (is_empty d) eqn:Hempty; simpl.
    + apply is_empty_true in Hempty as ->. rewrite andb_false_r. split.
      * discriminate.
      * intros [?|[(d & [= <-] & ? & _)|(d & [= <-] & ? & _)]]; done.
    + apply is_empty_false in Hempty.
      destruct (contains img SHA) eqn:Hc; simpl.
      * case_bool_decide as Hdig; [split; [|auto]|].
        -- intros _. right. left. exists d. auto.
        -- rewrite andb_true_iff, bool_decide_eq_true. split.
           ++ intros [? ?]. right. right. exists d. auto.
           ++ intros [?|[(d' & [= <-] & _ & _ & ?)|(d' & [= <-] & _ & ? & ?)]];
                done.
      * rewrite andb_true_iff, bool_decide_eq_true. split.
        -- intros [? ?]. right. right. exists d. auto.
        -- intros [?|[(d' & [= <-] & _ & ? & _)|(d' & [= <-] & _ & ? & ?)]];
             done.
  - rewrite andb_false_r. split; [discriminate|].
    intros [?|[(d & ? & _)|(d & ? & _)]]; done.
Qed.

Lemma Matches_dec ref c :
  (if is_empty (default [] (containerImage c)) then false
   else image_matches ref (digest_of ref) (default [] (containerImage c)))
  = true <-> Matches ref c.
Proof.
  unfold Matches. destruct (containerImage c) as [img|]; simpl.
  - destruct (is_empty img) eqn:E.
    + apply is_empty_true in E as ->. split; [discriminate|].
      now intros (img & [= <-] & ? & _).
    + apply is_empty_false in E. rewrite image_matches_iff. split.
      * intros H. now exists img.
      * now intros (img' & [= <-] & _ & H).
  - split; [discriminate|]. now intros (img & ? & _).
Qed.

(** One turn of the loop: the component is returned when it is accepted,
    passed over otherwise. *)
Lemma match_loop_cons ref x comps :
  match_loop ref (digest_of ref) (x :: comps)
  = if (if is_empty (default [] (containerImage x)) then false
        else image_matches ref (digest_of ref)
               (default [] (containerImage x)))
    then Some x
    else match_loop ref (digest_of ref) comps.
Proof.
  cbn [match_loop]. cbv zeta.
  destruct (is_empty (default [] (containerImage x))); [reflexivity|].
  now destruct (image_matches ref (digest_of ref) _).
Qed.

Lemma match_loop_Some ref comps c :
  match_loop ref (digest_of ref) comps = Some c <->
  exists pre post,
    comps = pre ++ c :: post /\ Matches ref c /\
    Forall (fun x => ~ Matches ref x) pre.
Proof.
  induction comps as [|x comps IH].
  - split; [discriminate|]. intros (pre & post & H & _).
    now destruct pre.
  - rewrite match_loop_cons. pose proof (Matches_dec ref x) as Hx.
    destruct (if is_empty (default [] (containerImage x)) then false
              else image_matches ref (digest_of ref)
                     (default [] (containerImage x))).
    + (* [x] is accepted *)
      split.
      * intros [= <-]. exists [], comps. repeat split; auto.
        now apply Hx.
      * intros ([|y pre] & post & Heq & Hc & Hpre); injection Heq as <- ->.
        -- reflexivity.
        -- apply Forall_cons in Hpre as [Hy _]. exfalso. now apply Hy, Hx.
    + (* [x] is passed over *)
      rewrite IH. split.
      * intros (pre & post & -> & Hc & Hpre). exists (x :: pre), post.
        repeat split; auto. constructor; [|exact Hpre].
        intros H%Hx. discriminate.
      * intros ([|y pre] & post & Heq & Hc & Hpre); injection Heq as <- ->.
        -- apply Hx in Hc. discriminate.
        -- apply Forall_cons in Hpre as [_ Hpre]. eauto.
Qed.

End Match.

Import Correlator.

(** C3, as the code has it.  The correlator returns the first component,
    in list order, whose image is not empty and passes one of the three
    tests (equal to the reference, same digest after the separator, same
    name with the digest of the reference inside the image); the tests
    are ordered within one component, not across the list.  So a
    component whose image is the reference is returned when no component
    before it passes a test. *)
Theorem first_matching_component_wins (violation_image_ref : str)
  (components : list Component) :
  (forall c,
     match_component_to_violation violation_image_ref components = Some c <->
     exists pre post,
       components = pre ++ c :: post /\ Matches violation_image_ref c /\
       Forall (fun x => ~ Matches violation_image_ref x) pre) /\
  (forall pre c post,
     violation_image_ref <> [] ->
     components = pre ++ c :: post ->
     containerImage c = Some violation_image_ref ->
     Forall (fun x => ~ Matches violation_image_ref x) pre ->
     match_component_to_violation violation_image_ref components = Some c).
Proof.
  assert (Hmain : forall c,
     match_component_to_violation violation_image_ref components = Some c <->
     exists pre post,
       components = pre ++ c :: post /\ Matches violation_image_ref c /\
       Forall (fun x => ~ Matches violation_image_ref x) pre).
  { intros c. unfold match_component_to_violation.
    destruct (is_empty violation_image_ref) eqn:E.
    - apply is_empty_true in E. split; [discriminate|].
      intros (_ & _ & _ & (img & _ & Hne & [H|[H|H]]) & _); exfalso.
      + apply Hne. now rewrite H, E.
      + destruct H as (d & H & _). now rewrite E in H.
      + destruct H as (d & H & _). now rewrite E in H.
    - destruct components as [|x comps]; [|apply match_loop_Some].
      split; [discriminate|]. intros (pre & post & H & _). now destruct pre. }
  split; [exact Hmain|].
  intros pre c post Hne -> Himg Hpre. apply Hmain.
  exists pre, post. repeat split; auto.
  exists violation_image_ref. repeat split; auto. now left.
Qed.

(** ** The claims on the example logs *)

Section Examples.

Import Fixtures.

(** The end-to-end scenario: one violation, with its rule, its image
    reference and its reason, the other fields unset. *)
Example cve_log_extracted : extract_violations cve_log = Some [cve_violation].
Proof. vm_compute. reflexivity. Qed.

End Examples.

Import Fixtures.

(** C8 on the end-to-end scenario. *)
Lemma rule_nonempty_cve :
  parse_violation_block cve_log 1 = (Some cve_violation, 4%nat) /\
  rule cve_violation <> [].
Proof.
  split; [vm_compute; reflexivity|].
  apply (rule_nonempty cve_log 1 cve_violation 4). vm_compute. reflexivity.
Defined.

(** C5 on a log without violations. *)
Lemma no_violations_in_clean_log : extract_violations clean_log = Some [].
Proof.
  apply (no_start_line_no_violations clean_log).
  apply Forall_forall. repeat constructor.
Defined.

(** C2, the claim as stated fails: the continuation line of the wrapped
    reason loses its indentation, because every line is stripped when it
    is read; the value is not the source lines joined and stripped once,
    with or without their line terminators. *)
Lemma wrapped_reason_loses_indentation :
  (parse_violation_block wrapped_log 0).1 = Some wrapped_violation /\
  reason wrapped_violation = Some wrapped_reason /\
  wrapped_reason
  <> joined_source (lit " first part") [lit "      second part"] /\
  wrapped_reason
  <> joined_source (lit " first part" ++ [NL])
       [lit "      second part" ++ [NL]].
Proof. vm_compute. repeat split; discriminate. Qed.

(** C2 on the wrapped reason. *)
Lemma wrapped_reason_is_joined :
  parse_violation_block wrapped_log 0 = (Some wrapped_violation, 3%nat) /\
  ((FReason = FReason /\
    Fallback (block_lines (drop 1 wrapped_log)) wrapped_reason) \/
   exists lab conts,
     Segment (block_lines (drop 1 wrapped_log)) FReason lab conts /\
     wrapped_reason = strip (join [NL] (label_text FReason lab :: conts)) /\
     (contains (after_label FReason lab) (label FReason) = false ->
      label_text FReason lab = strip (after_label FReason lab))).
Proof.
  split; [vm_compute; reflexivity|].
  apply (flushed_field_is_joined_stripped_lines
           wrapped_log 0 wrapped_violation 3 FReason wrapped_reason);
    vm_compute; reflexivity.
Defined.

(** C4, the claim as stated fails: a label with nothing after it sets its
    field to the empty string. *)
Lemma bare_label_gives_empty_string :
  (parse_violation_block bare_label_log 0).1 = Some bare_label_violation /\
  reason bare_label_violation = Some [].
Proof. vm_compute. split; reflexivity. Qed.

(** C4 on the bare label. *)
Lemma bare_label_is_the_only_empty :
  parse_violation_block bare_label_log 0
  = (Some bare_label_violation, 3%nat) /\
  strip [] = [] /\
  (([] : str) = [] ->
   exists lab,
     Segment (block_lines (drop 1 bare_label_log)) FReason lab [] /\
     label_text FReason lab = []).
Proof.
  split; [vm_compute; reflexivity|].
  apply (field_empty_only_for_bare_label
           bare_label_log 0 bare_label_violation 3 FReason []);
    vm_compute; reflexivity.
Defined.

(** C10 on a block that starts with three lines without a label. *)
Lemma fallback_log_drops_lines :
  exists v,
    (parse_violation_block
       (fallback_before ++ start_line "sig.missing" :: fallback_first
          :: fallback_dropped ++ fallback_rest)
       (length fallback_before)).1 = Some v /\
    (parse_violation_block
       (fallback_before ++ start_line "sig.missing" :: fallback_first
          :: fallback_rest)
       (length fallback_before)).1 = Some v.
Proof.
  apply (lines_after_fallback_are_dropped fallback_before fallback_rest
           fallback_dropped (start_line "sig.missing") fallback_first).
  - vm_compute. eauto.
  - vm_compute. discriminate.
  - vm_compute. reflexivity.
  - repeat constructor; vm_compute; discriminate.
Defined.

(** C6 on a section that lists an image twice. *)
Lemma validate_log_lists_each_once :
  ImageRefs.extract_image_refs validate_log = Ok validate_refs /\
  NoDup validate_refs.
Proof.
  split; [vm_compute; reflexivity|].
  apply (image_refs_distinct_in_first_appearance_order
           validate_log validate_refs).
  vm_compute. reflexivity.
Defined.

(** C9 on a one-line block with the plural key. *)
Lemma one_component_log_normalized :
  Components.extract_components one_text_loads one_component_log
  = Ok (PList [PDict [(lit "name", PStr (lit "web"))]]).
Proof.
  destruct (components_normalized one_text_loads one_component_log 1
              one_component_doc) as [Hplural _];
    [vm_compute; reflexivity..|].
  apply Hplural. vm_compute. reflexivity.
Defined.

(** C3, the claim as stated fails: with the component that matches by
    digest only listed first, it is returned, not the component whose
    image is the reference. *)
Lemma digest_match_listed_first_is_returned :
  Correlator.match_component_to_violation ref_AAA
    [mirror_component; exact_component] = Some mirror_component /\
  Correlator.containerImage exact_component = Some ref_AAA /\
  Correlator.containerImage mirror_component <> Some ref_AAA.
Proof. vm_compute. repeat split; discriminate. Qed.

(** C1. The brace inside the string value of the second line brings the
    count back to zero there: the text handed to the parser stops after
    that line and leaves out the rest of the object. *)
Lemma brace_in_string_cuts_the_block :
  Components.find_json_start braces_log 0 = Some 1%nat /\
  Components.json_str braces_log 1 = braces_open ++ braces_first /\
  Components.json_str braces_log 1
  <> braces_open ++ braces_first ++ braces_second ++ braces_close /\
  forall loads,
    Components.extract_components loads braces_log
    = match loads (braces_open ++ braces_first) with
      | None => Raise (ValueError (lit "Could not parse components JSON"))
      | Some data => Components.normalize data
      end.
Proof.
  assert (Hstr : Components.json_str braces_log 1
                 = braces_open ++ braces_first)
    by (vm_compute; reflexivity).
  split; [vm_compute; reflexivity|]. split; [exact Hstr|]. split.
  - vm_compute. discriminate.
  - intros loads. unfold Components.extract_components.
    change (Components.find_json_start braces_log 0) with (Some 1%nat).
    cbv iota beta. now rewrite Hstr.
Qed.

(** The policy extractor counts in the same way: the brace in the value
    of [note] makes the count reach zero one line early, and the line
    that closes the object is left out. *)
Lemma brace_in_string_cuts_the_policy :
  Policy.json_str policy_log 1
  = Some (join (lit " ")
            [strip policy_open; strip policy_note; strip policy_sources]).
Proof. vm_compute. reflexivity. Qed.

(** C7. In [next_step_log] the next [STEP-] marker follows the
    [STEP-VALIDATE] marker at once, so the section holds no line and no
    reference. The loop does not test the line right after the marker
    for [STEP-] ([i > validate_start_idx] is false there), reads on into
    the section that follows and returns its reference, where the error
    is due. *)
Lemma reference_of_the_next_section_is_returned :
  find_marker (lit "STEP-VALIDATE") next_step_log 0 = Some 1%nat /\
  ImageRefs.described_header (drop 1 next_step_log) = [] /\
  ImageRefs.described_section_refs next_step_log = [] /\
  ImageRefs.section_refs next_step_log = [next_step_ref] /\
  ImageRefs.extract_image_refs next_step_log = Ok [next_step_ref] /\
  ImageRefs.extract_image_refs next_step_log
  <> Raise (ValueError
              (lit "No image references found in STEP-VALIDATE section")).
Proof.
  assert (Hrefs : ImageRefs.section_refs next_step_log = [next_step_ref])
    by (vm_compute; reflexivity).
  assert (Hret : ImageRefs.extract_image_refs next_step_log
                 = Ok [next_step_ref]).
  { rewrite extract_image_refs_spec, Hrefs. vm_compute. reflexivity. }
  split; [vm_compute; reflexivity|].
  split; [vm_compute; reflexivity|].
  split; [vm_compute; reflexivity|].
  split; [exact Hrefs|].
  split; [exact Hret|].
  rewrite Hret. discriminate.
Qed.

(** * Further properties *)

(** ** Where a block ends *)

Section BlockEnd.

Implicit Types (ls lines : list str) (l : str).

(** The loop reads the lines up to the first one that strips to the
    empty string. *)
Lemma block_lines_take ls :
  block_lines ls = map strip (take (length (block_lines ls)) ls).
Proof.
  induction ls as [|l ls IH]; simpl; [reflexivity|].
  destruct (is_empty (strip l)); simpl; [reflexivity|]. now rewrite <-IH.
Qed.

Lemma block_lines_length ls : (length (block_lines ls) <= length ls)%nat.
Proof.
  induction ls as [|l ls IH]; simpl; [lia|].
  destruct (is_empty (strip l)); simpl; lia.
Qed.

Lemma block_lines_stop ls l :
  ls !! length (block_lines ls) = Some l -> strip l = [].
Proof.
  induction ls as [|l0 ls IH]; simpl; [discriminate|].
  destruct (is_empty (strip l0)) eqn:E; simpl.
  - intros [= <-]. now apply is_empty_true.
  - exact IH.
Qed.

Lemma block_lines_inside ls j l :
  (j < length (block_lines ls))%nat -> ls !! j = Some l -> strip l <> [].
Proof.
  revert j. induction ls as [|l0 ls IH]; intros j; simpl; [lia|].
  destruct (is_empty (strip l0)) eqn:E; simpl; [lia|].
  destruct j as [|j]; simpl.
  - intros _ [= <-]. now apply is_empty_false.
  - intros Hj. apply IH. lia.
Qed.

End BlockEnd.

(** X1. A block that [parse_violation_block] parses ends at the first
    empty line after the start line, or at the end of the log: the index
    it answers is past the start line and inside the log or just after
    it, no line in between strips to the empty string, and the line at
    that index, when there is one, does. *)
Theorem block_ends_at_first_empty_line (lines : list str)
  (start_idx : nat) (v : Violation) (next_idx : nat) :
  parse_violation_block lines start_idx = (Some v, next_idx) ->
  (start_idx < next_idx <= length lines)%nat /\
  (forall j l,
     (start_idx < j < next_idx)%nat -> lines !! j = Some l ->
     strip l <> []) /\
  (forall l, lines !! next_idx = Some l -> strip l = []).
Proof.
  intros (l0 & g & Hl0 & _ & _ & ->)%parse_violation_block_Some.
  rewrite block_loop_run. simpl.
  pose proof (lookup_lt_Some _ _ _ Hl0) as Hlt.
  pose proof (block_lines_length (drop (S start_idx) lines)) as Hlen.
  rewrite length_drop in Hlen.
  split; [lia|]. split.
  - intros j l [Hj1 Hj2] Hl.
    apply (block_lines_inside (drop (S start_idx) lines)
             (j - S start_idx)); [lia|].
    rewrite lookup_drop. now replace (S start_idx + (j - S start_idx))%nat
      with j by lia.
  - intros l Hl. apply (block_lines_stop (drop (S start_idx) lines)).
    now rewrite lookup_drop.
Qed.

(** ** The violations of a log *)

Section Starts.

Implicit Types (lines : list str) (vs acc : list Violation).

Lemma parse_started_at lines idx v n :
  parse_violation_block lines idx = (Some v, n) -> started_at lines idx v.
Proof.
  intros (l & g & Hl & Hm & -> & _)%parse_violation_block_Some.
  exists l, g. rewrite rule_flush, rule_block_loop. simpl.
  repeat split; auto.
  destruct (violation_match_head _ _ (strip_rstrip_fixed l) Hm)
    as (c & g' & -> & Hc).
  now apply strip_nonspace_head.
Qed.

Lemma extract_loop_starts fuel lines idx acc vs starts :
  extract_loop fuel lines idx acc = Some vs ->
  Forall2 (started_at lines) starts acc ->
  Forall (fun i => (i < idx)%nat) starts ->
  StronglySorted lt starts ->
  exists starts',
    StronglySorted lt starts' /\ Forall2 (started_at lines) starts' vs.
Proof.
  revert idx acc starts.
  induction fuel as [|fuel IH]; intros idx acc starts; simpl;
    destruct (idx <? length lines)%nat eqn:E; try discriminate;
    try (intros [= <-]; eauto).
  apply Nat.ltb_lt in E.
  pose proof (parse_violation_block_next lines idx E) as Hnext.
  destruct (parse_violation_block lines idx) as [[v|] next] eqn:Hp;
    simpl in Hnext; intros Hloop Hacc Hlt Hsorted.
  - apply (IH _ _ (starts ++ [idx]) Hloop).
    + apply Forall2_app; [exact Hacc|].
      constructor; [|constructor]. eapply parse_started_at, Hp.
    + apply Forall_app. split.
      * eapply Forall_impl; [exact Hlt|]. simpl. lia.
      * constructor; [lia|constructor].
    + apply StronglySorted_app. repeat split; auto.
      * intros x1 x2 Hx1 Hx2%list_elem_of_singleton.
        rewrite Forall_forall in Hlt. specialize (Hlt _ Hx1). lia.
      * repeat constructor.
  - apply (IH _ _ starts Hloop); auto.
    eapply Forall_impl; [exact Hlt|]. simpl. lia.
Qed.

End Starts.

(** X2. The violations [extract_violations] returns follow the start
    lines of the log: each one comes from a line that matches the
    pattern, with the stripped captured text as its rule, which is not
    empty; and they are listed in the order of these lines, one start line
    giving at most one violation. *)
Theorem violations_follow_start_lines (lines : list str)
  (vs : list Violation) :
  extract_violations lines = Some vs ->
  exists starts,
    StronglySorted lt starts /\
    Forall2 (fun i v =>
               exists l g,
                 lines !! i = Some l /\
                 violation_match (strip l) = Some g /\
                 rule v = strip g /\ rule v <> []) starts vs.
Proof.
  intros H.
  apply (extract_loop_starts _ _ _ _ _ [] H); constructor.
Qed.

Section Suffix.

Implicit Types (lines a b : list str) (vs acc : list Violation).

(** A call at [idx] only reads the lines from [idx] on. *)
Lemma parse_violation_block_drop lines idx :
  parse_violation_block lines idx =
  ((parse_violation_block (drop idx lines) 0).1,
   (idx + (parse_violation_block (drop idx lines) 0).2)%nat).
Proof.
  unfold parse_violation_block.
  rewrite lookup_drop, Nat.add_0_r, drop_drop, Nat.add_1_r.
  destruct (lines !! idx) as [l|]; simpl; [|f_equal; lia].
  destruct (violation_match (strip l)); simpl; [|f_equal; lia].
  destruct (block_loop _ _). simpl. f_equal. lia.
Qed.

Lemma parse_violation_block_bound lines idx :
  (idx < length lines)%nat ->
  ((parse_violation_block lines idx).2 <= length lines)%nat.
Proof.
  intros [l Hl]%lookup_lt_is_Some_2. unfold parse_violation_block.
  rewrite Hl. pose proof (lookup_lt_Some _ _ _ Hl).
  destruct (violation_match (strip l)); simpl; [|lia].
  rewrite block_loop_run. simpl.
  pose proof (block_lines_length (drop (S idx) lines)) as Hlen.
  rewrite length_drop in Hlen. lia.
Qed.

(** More fuel than the loop needs changes nothing. *)
Lemma extract_loop_more fuel fuel' lines idx acc :
  (length lines - idx <= fuel)%nat -> (length lines - idx <= fuel')%nat ->
  extract_loop fuel lines idx acc = extract_loop fuel' lines idx acc.
Proof.
  revert fuel' idx acc.
  induction fuel as [|fuel IH]; intros [|fuel'] idx acc H1 H2; simpl;
    destruct (idx <? length lines)%nat eqn:E; try reflexivity;
    apply Nat.ltb_lt in E; try lia.
  pose proof (parse_violation_block_next lines idx E) as Hnext.
  destruct (parse_violation_block lines idx) as [v next].
  simpl in Hnext. apply IH; lia.
Qed.

(** The loop from [idx] returns what it has so far, followed by the
    violations of the rest of the log. *)
Lemma extract_loop_shift fuel lines idx acc :
  (idx <= length lines)%nat -> (length lines - idx <= fuel)%nat ->
  extract_loop fuel lines idx acc
  = (fun r => acc ++ r) <$> extract_violations (drop idx lines).
Proof.
  revert lines idx acc.
  induction fuel as [|fuel IH]; intros lines idx acc Hidx Hfuel.
  - assert (idx = length lines) as -> by lia.
    rewrite drop_all. simpl. rewrite Nat.ltb_irrefl. simpl.
    now rewrite app_nil_r.
  - cbn [extract_loop].
    destruct (idx <? length lines)%nat eqn:E.
    + apply Nat.ltb_lt in E.
      pose proof (parse_violation_block_next lines idx E) as Hnext.
      pose proof (parse_violation_block_bound lines idx E) as Hbound.
      rewrite parse_violation_block_drop in Hnext, Hbound |- *.
      simpl in Hnext, Hbound.
      set (D := drop idx lines) in *.
      assert (HD : length D = (length lines - idx)%nat)
        by apply length_drop.
      unfold extract_violations at 1.
      destruct (length D) as [|k] eqn:Hk; [lia|].
      cbn [extract_loop]. rewrite Hk.
      replace (0 <? S k)%nat with true by reflexivity.
      destruct (parse_violation_block D 0) as [v n] eqn:Hp.
      simpl in Hnext, Hbound |- *.
      rewrite (IH lines (idx + n)%nat) by lia.
      rewrite (extract_loop_more k fuel D n) by lia.
      rewrite (IH D n) by lia.
      unfold D. rewrite drop_drop.
      destruct (extract_violations (drop (idx + n) lines)) as [r|];
        simpl; [|reflexivity].
      destruct v; simpl; now rewrite <-?app_assoc.
    + apply Nat.ltb_ge in E. assert (idx = length lines) as -> by lia.
      rewrite drop_all. simpl. now rewrite app_nil_r.
Qed.

(** One turn of [extract_violations] on a log that is not empty. *)
Lemma extract_violations_cons l lines :
  extract_violations (l :: lines)
  = (fun r =>
       match (parse_violation_block (l :: lines) 0).1 with
       | Some v => v :: r
       | None => r
       end)
    <$> extract_violations
          (drop (parse_violation_block (l :: lines) 0).2 (l :: lines)).
Proof.
  pose proof (parse_violation_block_next (l :: lines) 0) as Hnext.
  pose proof (parse_violation_block_bound (l :: lines) 0) as Hbound.
  unfold extract_violations at 1. cbn [length extract_loop].
  replace (0 <? S (length lines))%nat with true by reflexivity.
  destruct (parse_violation_block (l :: lines) 0) as [v n].
  simpl in Hnext, Hbound |- *.
  rewrite extract_loop_shift by (simpl; lia).
  destruct (extract_violations _); simpl; [|reflexivity].
  now destruct v.
Qed.

(** An empty line closes the block before it: the lines after it are not
    read. *)
Lemma block_lines_before_empty a blank b :
  strip blank = [] -> block_lines (a ++ blank :: b) = block_lines a.
Proof.
  intros Hblank. induction a as [|l a IH]; simpl.
  - now rewrite Hblank.
  - destruct (is_empty (strip l)); [reflexivity|]. now rewrite IH.
Qed.

Lemma parse_violation_block_before_empty l a blank b :
  strip blank = [] ->
  parse_violation_block (l :: a ++ blank :: b) 0
  = parse_violation_block (l :: a) 0.
Proof.
  intros Hblank. unfold parse_violation_block. simpl.
  destruct (violation_match (strip l)); [|reflexivity].
  rewrite !drop_0, !block_loop_run.
  now rewrite block_lines_before_empty.
Qed.

Lemma extract_violations_split_len n a blank b :
  (length a <= n)%nat -> strip blank = [] ->
  extract_violations (a ++ blank :: b)
  = match extract_violations a, extract_violations b with
    | Some ra, Some rb => Some (ra ++ rb)
    | _, _ => None
    end.
Proof.
  revert a. induction n as [|n IH]; intros a Hlen Hblank.
  - destruct a; [|simpl in Hlen; lia]. simpl.
    rewrite extract_violations_cons.
    assert (Hp : parse_violation_block (blank :: b) 0 = (None, 1%nat)).
    { unfold parse_violation_block. simpl. now rewrite Hblank. }
    rewrite Hp. simpl. rewrite drop_0.
    now destruct (extract_violations b).
  - destruct a as [|l a].
    + apply (IH []); [simpl; lia|exact Hblank].
    + simpl in Hlen.
      rewrite <-app_comm_cons, !extract_violations_cons.
      rewrite parse_violation_block_before_empty by exact Hblank.
      pose proof (parse_violation_block_next (l :: a) 0) as Hnext.
      pose proof (parse_violation_block_bound (l :: a) 0) as Hbound.
      destruct (parse_violation_block (l :: a) 0) as [v k].
      simpl in Hnext, Hbound |- *.
      destruct k as [|k]; [lia|]. simpl.
      rewrite drop_app_le by lia.
      rewrite (IH (drop k a)) by (rewrite ?length_drop; auto; lia).
      destruct (extract_violations (drop k a)) as [ra|]; simpl;
        [|reflexivity].
      destruct (extract_violations b) as [rb|]; simpl; [|reflexivity].
      now destruct v.
Qed.

End Suffix.

(** X4. An empty line separates: the violations of a log with a line that
    strips to the empty string are the violations of the part before
    that line followed by the violations of the part after it. *)
Theorem violations_split_at_empty_line (a b : list str) (blank : str) :
  strip blank = [] ->
  exists va vb,
    extract_violations a = Some va /\
    extract_violations b = Some vb /\
    extract_violations (a ++ blank :: b) = Some (va ++ vb).
Proof.
  intros Hblank.
  destruct (extract_violations_total a) as [va Ha].
  destruct (extract_violations_total b) as [vb Hb].
  exists va, vb. split; [exact Ha|]. split; [exact Hb|].
  rewrite (extract_violations_split_len (length a)) by auto.
  rewrite Ha. simpl. now rewrite Hb.
Qed.

Section Adjacent.

Implicit Types (st : State) (blk : list str).

(** A start line carries no label: it starts with the sigil. *)
Lemma start_line_unlabeled line g :
  violation_match line = Some g -> classify line = None.
Proof.
  unfold violation_match. intros (s1 & -> & _)%literal_Some. reflexivity.
Qed.

Lemma start_line_nonempty line g : violation_match line = Some g -> line <> [].
Proof.
  unfold violation_match. intros (s1 & -> & _)%literal_Some. discriminate.
Qed.

Lemma reason_set_field f x v :
  is_Some (reason v) -> is_Some (reason (set_field f x v)).
Proof. destruct f; simpl; eauto. Qed.

Lemma reason_flush st :
  is_Some (reason (violation st)) -> is_Some (reason (flush st)).
Proof.
  unfold flush. destruct (current_field st), (current_value st); auto.
  apply reason_set_field.
Qed.

Lemma reason_step x st :
  is_Some (reason (violation st)) -> is_Some (reason (violation (step x st))).
Proof.
  unfold step. destruct (classify x); simpl; [apply reason_flush|].
  destruct (current_field st); simpl; [auto|].
  destruct (truthy _); simpl; eauto.
Qed.

(** Once [reason] is set it stays set. *)
Lemma reason_run blk st :
  is_Some (reason (violation st)) -> is_Some (reason (flush (run blk st))).
Proof.
  revert st. induction blk as [|x blk IH]; intros st H; simpl.
  - now apply reason_flush.
  - apply IH. now apply reason_step.
Qed.

End Adjacent.

(** X3. A start line that directly follows a start line opens no block
    of its own: the block of the first one goes on over it, and, as its
    first line without a label, it becomes the [reason] of the first
    violation unless a [Reason:] line follows in the block. *)
Theorem adjacent_start_line_is_swallowed (pre rest : list str)
  (s1 s2 : str) :
  is_Some (violation_match (strip s1)) ->
  is_Some (violation_match (strip s2)) ->
  exists v n,
    parse_violation_block (pre ++ s1 :: s2 :: rest) (length pre)
    = (Some v, n) /\
    (length pre + 2 <= n)%nat /\
    (Forall (fun x => classify x <> Some FReason) (block_lines rest) ->
     reason v = Some (strip s2)).
Proof.
  intros [g1 Hg1] [g2 Hg2].
  pose proof (start_line_unlabeled _ _ Hg2) as Hun.
  pose proof (start_line_nonempty _ _ Hg2) as Hne.
  apply is_empty_false in Hne.
  unfold parse_violation_block.
  rewrite list_lookup_middle by reflexivity. rewrite Hg1.
  rewrite cons_middle, app_assoc, drop_app_length'
    by (rewrite length_app; simpl; lia).
  rewrite block_loop_run. cbn [block_lines]. rewrite Hne.
  eexists _, _. split; [reflexivity|]. split; [simpl; lia|].
  intros Hrest. set (blk := strip s2 :: block_lines rest).
  assert (Hblk : Forall (fun l => l <> []) blk).
  { constructor; [now apply is_empty_false|apply block_lines_nonempty]. }
  assert (Hsome : is_Some (reason (flush (run blk (init_state (strip g1)))))).
  { unfold blk. rewrite run_cons. apply reason_run.
    unfold step. rewrite Hun. simpl. eauto. }
  destruct Hsome as [s Hs]. rewrite Hs. f_equal.
  destruct (flushed_values (strip g1) blk FReason s Hblk Hs)
    as [[_ (tl & Heq & _)]|(lab & conts & (l1 & l2 & Heq & Hlab & _) & _)].
  - now injection Heq as <- _.
  - exfalso. assert (Hin : lab ∈ blk).
    { rewrite Heq. apply elem_of_app. right. apply elem_of_cons. now left. }
    apply elem_of_cons in Hin as [->|Hin]; [congruence|].
    rewrite Forall_forall in Hrest. now apply (Hrest lab Hin).
Qed.

(** ** The section of the image references *)

Section SectionEnd.

Import ImageRefs.

Implicit Types (lines a rest : list str) (l m : str).

Lemma find_marker_first marker (p1 : list str) m rest i :
  Forall (fun x => strip x <> marker) p1 -> strip m = marker ->
  find_marker marker (p1 ++ m :: rest) i = Some (S (i + length p1)).
Proof.
  intros Hp1 Hm. revert i. induction Hp1 as [|x p1 Hx _ IH]; intros i; simpl.
  - rewrite bool_decide_eq_true_2 by exact Hm. f_equal. lia.
  - rewrite bool_decide_eq_false_2 by exact Hx. rewrite IH. f_equal. lia.
Qed.

(** The lines after the one that ends the section are not read. *)
Lemma header_stop start a l rest rest' i :
  startswith (strip l) (lit "Results:") = true \/
  (startswith (strip l) (lit "STEP-") = true /\ (start < i + length a)%nat) ->
  header start (a ++ l :: rest) i = header start (a ++ l :: rest') i.
Proof.
  revert i. induction a as [|x a IH]; intros i Hstop; simpl.
  - destruct Hstop as [->|[-> Hlt]]; [reflexivity|].
    rewrite Nat.add_0_r in Hlt. apply Nat.ltb_lt in Hlt. rewrite Hlt.
    now destruct (startswith (strip l) (lit "Results:")).
  - rewrite (IH (S i)); [reflexivity|].
    destruct Hstop as [?|[? ?]]; [now left|right].
    split; [assumption|]. simpl in *. lia.
Qed.

Lemma line_ref_value l x :
  line_ref l = Some x ->
  startswith (strip l) (lit "ImageRef:") = true /\
  x = ref_of (strip l) /\ x <> [] /\ strip x = x.
Proof.
  unfold line_ref.
  destruct (startswith (strip l) (lit "ImageRef:")); [|discriminate].
  destruct (is_empty (ref_of (strip l))) eqn:E; [discriminate|].
  intros [= <-]. repeat split; auto.
  - now apply is_empty_false.
  - apply strip_idem.
Qed.

Lemma header_elem start ls i l : l ∈ header start ls i -> l ∈ ls.
Proof.
  revert i. induction ls as [|x ls IH]; intros i; simpl; [auto|].
  destruct (startswith (strip x) (lit "Results:"));
    [now intros ?%elem_of_nil|].
  destruct (startswith (strip x) (lit "STEP-") && (start <? i)%nat);
    [now intros ?%elem_of_nil|].
  intros [->|H]%elem_of_cons; apply elem_of_cons; [now left|right].
  eapply IH, H.
Qed.

Lemma section_refs_elem lines x :
  x ∈ section_refs lines ->
  exists l, l ∈ lines /\ line_ref l = Some x.
Proof.
  unfold section_refs.
  destruct (find_marker _ lines 0) as [start|];
    [|now intros ?%elem_of_nil].
  intros (l & Hl & Hx)%list_elem_of_omap. exists l. split; [|exact Hx].
  apply header_elem in Hl. eapply list_elem_of_lookup_1 in Hl as [j Hj].
  rewrite lookup_drop in Hj. eapply list_elem_of_lookup_2, Hj.
Qed.

End SectionEnd.

Import ImageRefs.

(** X5. The scan of the image references stops at the end of the
    section: with the first [STEP-VALIDATE] marker at [m], a later line
    that starts with [Results:], or with [STEP-] when it is not the line
    right after the marker, ends it, and what follows that line has no
    effect on the result. *)
Theorem nothing_read_after_section_end (p1 p2 rest rest' : list str)
  (m l : str) :
  Forall (fun x => strip x <> lit "STEP-VALIDATE") p1 ->
  strip m = lit "STEP-VALIDATE" ->
  startswith (strip l) (lit "Results:") = true \/
  (startswith (strip l) (lit "STEP-") = true /\ p2 <> []) ->
  extract_image_refs (p1 ++ m :: p2 ++ l :: rest)
  = extract_image_refs (p1 ++ m :: p2 ++ l :: rest').
Proof.
  intros Hp1 Hm Hstop. rewrite !extract_image_refs_spec.
  unfold section_refs. rewrite !(find_marker_first _ p1 m) by assumption.
  simpl. rewrite !(cons_middle m p1), !app_assoc.
  rewrite <-!(app_assoc (p1 ++ [m])).
  rewrite !drop_app_length' by (rewrite length_app; simpl; lia).
  rewrite (header_stop _ p2 l rest rest'); [reflexivity|].
  destruct Hstop as [?|[? Hp2]]; [now left|right].
  split; [assumption|]. destruct p2; [done|simpl; lia].
Qed.

(** X6. Every reference [extract_image_refs] returns is the value of an
    [ImageRef:] line of the log: the stripped line starts with the label,
    and the reference is that line without the label, stripped; it is not
    empty and has no whitespace at either end. *)
Theorem image_refs_come_from_label_lines (lines refs : list str) (x : str) :
  extract_image_refs lines = Ok refs -> x ∈ refs ->
  exists l,
    l ∈ lines /\
    startswith (strip l) (lit "ImageRef:") = true /\
    x = strip (replace (strip l) (lit "ImageRef:") []) /\
    x <> [] /\ strip x = x.
Proof.
  rewrite extract_image_refs_spec.
  destruct (find_marker _ lines 0); [|discriminate].
  destruct (dedup_onto [] (section_refs lines)) as [|r rs] eqn:E;
    [discriminate|]. intros [= <-]. rewrite <-E.
  intros [?%elem_of_nil|Hx]%dedup_onto_elem; [done|].
  apply section_refs_elem in Hx as (l & Hl & Hx).
  exists l. split; [exact Hl|]. now apply line_ref_value.
Qed.

(** ** The blocks handed to the parser *)


Section ComponentsBlock.

Import Components.

Lemma collect_later start ls i bc :
  (start < i)%nat ->
  exists k,
    collect start ls i bc = take k ls /\ (k <= length ls)%nat /\
    (k = length ls \/ ((1 <= k)%nat /\ (bc + balance (take k ls) = 0)%Z)) /\
    forall j, (1 <= j < k)%nat -> (bc + balance (take j ls) <> 0)%Z.
Proof.
  intros Hi. revert i bc Hi.
  induction ls as [|l ls IH]; intros i bc Hi.
  - exists 0%nat. simpl. repeat split; auto. intros j. lia.
  - cbn [collect]. cbv zeta. apply Nat.ltb_lt in Hi as Hi'. rewrite Hi'.
    rewrite andb_true_r.
    destruct (bc + (count l LBRACE - count l RBRACE) =? 0)%Z eqn:E.
    + apply Z.eqb_eq in E. exists 1%nat. simpl.
      repeat split; [lia| |intros j; lia].
      right. split; [lia|]. lia.
    + apply Z.eqb_neq in E.
      destruct (IH (S i) (bc + (count l LBRACE - count l RBRACE))%Z)
        as (k & Hk & Hlen & Hend & Hmin); [lia|].
      exists (S k). simpl. rewrite Hk. repeat split; [lia| |].
      * destruct Hend as [->|[? ?]]; [now left|right]. split; lia.
      * intros [|[|j]] Hj; [lia|simpl; lia|].
        specialize (Hmin (S j)). simpl in *.
        intros H. apply Hmin; lia.
Qed.

End ComponentsBlock.

Import Components.

(** X7. The block [extract_components] hands to the parser is made of
    the start line and the lines after it, up to the first line AFTER the
    start line at which no brace is left open; the start line alone never
    ends the block, even when its own braces balance.  When no such line
    exists the block runs to the end of the log. *)
Theorem components_block_shape (lines : list str) (json_start_idx : nat) :
  exists k,
    json_str lines json_start_idx
    = join [] (take k (drop json_start_idx lines)) /\
    (k = length (drop json_start_idx lines) \/
     ((2 <= k)%nat /\
      balance (take k (drop json_start_idx lines)) = 0%Z)) /\
    forall j,
      (2 <= j < k)%nat ->
      balance (take j (drop json_start_idx lines)) <> 0%Z.
Proof.
  unfold json_str. destruct (drop json_start_idx lines) as [|l0 ls].
  - exists 0%nat. simpl. repeat split; auto. intros j. lia.
  - cbn [collect]. cbv zeta. rewrite Nat.ltb_irrefl, andb_false_r.
    destruct (collect_later json_start_idx ls (S json_start_idx)
                (0 + (count l0 LBRACE - count l0 RBRACE))%Z)
      as (k & -> & Hlen & Hend & Hmin); [lia|].
    exists (S k). simpl. split; [reflexivity|]. split.
    + destruct Hend as [->|[? ?]]; [now left|right]. split; lia.
    + intros [|j] Hj; [lia|]. simpl. specialize (Hmin j). lia.
Qed.

(** X8. With a parser that answers objects only (as [json.loads] does on
    a text that starts with a brace), [extract_components] returns or
    raises a [ValueError]: no other exception leaves it. *)
Theorem components_raise_value_error_only (loads : str -> option pyval)
  (lines : list str) :
  (forall s data, loads s = Some data -> exists d, data = PDict d) ->
  (exists components, extract_components loads lines = Ok components) \/
  (exists msg, extract_components loads lines = Raise (ValueError msg)).
Proof.
  intros Hobj. unfold extract_components.
  destruct (find_json_start lines 0) as [start|]; [|eauto].
  destruct (loads (json_str lines start)) as [data|] eqn:E; [|eauto].
  destruct (Hobj _ _ E) as [d ->]. rewrite normalize_dict.
  destruct (lookup (lit "components") d) as [v|].
  - destruct (truth v); eauto.
  - destruct (lookup (lit "component") d); eauto.
Qed.

Section PolicyBlock.

Import Policy.

Implicit Types (ls pre blk rest : list str) (st : Collect).


Lemma opens_block_nonempty l : opens_block l = true -> is_empty (strip l) = false.
Proof. unfold opens_block. now destruct (strip l). Qed.

(** Once the block is open every line is taken, stripped, until the
    closing test holds. *)
Lemma collect_started ls st :
  started st = true ->
  exists k,
    (k <= length ls)%nat /\
    json_lines (collect ls st) = json_lines st ++ map strip (take k ls) /\
    (k = length ls \/
     exists l, (1 <= k)%nat /\ ls !! (k - 1)%nat = Some l /\
       closes_block (brace_count st + balance (map strip (take k ls))) l
       = true) /\
    forall j l,
      (1 <= j < k)%nat -> ls !! (j - 1)%nat = Some l ->
      closes_block (brace_count st + balance (map strip (take j ls))) l
      = false.
Proof.
  revert st. induction ls as [|x ls IH]; intros st Hst.
  - exists 0%nat. simpl. rewrite app_nil_r. repeat split; auto.
    intros j l. lia.
  - cbn [collect]. cbv zeta. rewrite Hst, andb_false_r, orb_true_r.
    set (bc := (brace_count st
                + (count (strip x) LBRACE - count (strip x) RBRACE))%Z).
    destruct ((bc =? 0)%Z && endswith (strip x) [RBRACE]) eqn:E.
    + exists 1%nat. simpl. repeat split; [lia| |intros j l; lia].
      right. exists x. repeat split; [lia|].
      unfold closes_block. rewrite <-E. f_equal. f_equal. unfold bc. lia.
    + destruct (IH {| json_lines := json_lines st ++ [strip x];
                      brace_count := bc; started := true |} eq_refl)
        as (k & Hlen & Hk & Hend & Hmin).
      exists (S k). simpl in *. rewrite Hk, <-app_assoc. simpl.
      repeat split; [lia| |].
      * destruct Hend as [->|(l & ? & Hl & Hc)]; [now left|right].
        exists l. repeat split; [lia| |].
        -- destruct k; [lia|]. simpl in *. now rewrite Nat.sub_0_r in Hl.
        -- rewrite <-Hc. f_equal. unfold bc. lia.
      * intros [|[|j]] l Hj Hl; [lia| |].
        -- simpl in Hl. injection Hl as <-. simpl.
           unfold closes_block. rewrite <-E. f_equal. f_equal.
           unfold bc. lia.
        -- rewrite <-(Hmin (S j) l); [|lia|].
           ++ f_equal. simpl. unfold bc. lia.
           ++ simpl in *. now rewrite Nat.sub_0_r.
Qed.

(** Before the block is open, the lines that do not open it are passed
    over. *)
Lemma collect_skip pre ls st :
  started st = false -> Forall (fun l => opens_block l = false) pre ->
  collect (pre ++ ls) st = collect ls st.
Proof.
  intros Hst Hpre. induction Hpre as [|x pre Hx _ IH]; [reflexivity|].
  cbn [app collect]. cbv zeta. unfold opens_block in Hx.
  rewrite Hst, Hx. simpl. rewrite IH.
  now destruct (is_empty (strip x)).
Qed.

Lemma collect_none ls st :
  started st = false -> Forall (fun l => opens_block l = false) ls ->
  collect ls st = st.
Proof.
  intros Hst Hls. rewrite <-(app_nil_r ls), collect_skip by assumption.
  reflexivity.
Qed.

(** A log splits at its first line that opens a block. *)
Lemma first_opening ls :
  Forall (fun l => opens_block l = false) ls \/
  exists pre x tl,
    ls = pre ++ x :: tl /\ Forall (fun l => opens_block l = false) pre /\
    opens_block x = true.
Proof.
  induction ls as [|x ls [IH|(pre & y & tl & -> & Hpre & Hy)]].
  - left. constructor.
  - destruct (opens_block x) eqn:E.
    + right. exists [], x, ls. repeat split; auto.
    + left. now constructor.
  - destruct (opens_block x) eqn:E.
    + right. exists [], x, (pre ++ y :: tl). repeat split; auto.
    + right. exists (x :: pre), y, tl. repeat split; auto.
Qed.


(** What the loop collects from a log, read from the first line that
    opens a block. *)
Lemma collect_from_opening pre x tl :
  Forall (fun l => opens_block l = false) pre -> opens_block x = true ->
  exists k,
    (1 <= k <= S (length tl))%nat /\
    json_lines (collect (pre ++ x :: tl) init_collect)
    = map strip (take k (x :: tl)) /\
    (k = S (length tl) \/
     exists l, (x :: tl) !! (k - 1)%nat = Some l /\
       closes_block (balance (map strip (take k (x :: tl)))) l = true) /\
    forall j l,
      (1 <= j < k)%nat -> (x :: tl) !! (j - 1)%nat = Some l ->
      closes_block (balance (map strip (take j (x :: tl)))) l = false.
Proof.
  intros Hpre Hx. rewrite collect_skip by auto.
  destruct (collect_started (x :: tl) {| json_lines := []; brace_count := 0;
                                         started := true |} eq_refl)
    as (k & Hlen & Hk & Hend & Hmin).
  assert (Hsame : collect (x :: tl) init_collect
                  = collect (x :: tl) {| json_lines := []; brace_count := 0;
                                         started := true |}).
  { cbn [collect]. cbv zeta. unfold opens_block in Hx. rewrite Hx.
    rewrite (opens_block_nonempty _ Hx). reflexivity. }
  rewrite Hsame, Hk. simpl json_lines. simpl brace_count in *.
  assert (Hk1 : (1 <= k)%nat).
  { destruct Hend as [->|(l & ? & _)]; simpl; lia. }
  exists k. simpl length in *. repeat split; [lia|lia| |].
  - destruct Hend as [->|(l & _ & Hl & Hc)]; [now left|right].
    exists l. split; [exact Hl|]. exact Hc.
  - intros j l Hj Hl. exact (Hmin j l Hj Hl).
Qed.

Lemma startswith_nil s : startswith s [] = true.
Proof. now destruct s. Qed.

Lemma startswith_app s t p :
  startswith s p = true -> startswith (s ++ t) p = true.
Proof.
  revert s. induction p as [|a p IH]; intros s;
    [intros _; apply startswith_nil|].
  destruct s as [|c s]; simpl; [discriminate|].
  intros [Hc H]%andb_prop. rewrite Hc. simpl. auto.
Qed.

Lemma startswith_join sep x r p :
  startswith x p = true -> startswith (join sep (x :: r)) p = true.
Proof.
  intros H. destruct r; cbn [join]; [exact H|now apply startswith_app].
Qed.

Lemma policy_json_str_None lines start :
  Policy.json_str lines start = None <->
  Forall (fun l => opens_block l = false) (drop start lines).
Proof.
  unfold Policy.json_str. fold init_collect.
  destruct (first_opening (drop start lines))
    as [Hnone|(pre & x & tl & -> & Hpre & Hx)].
  - rewrite collect_none by auto. simpl. tauto.
  - destruct (collect_from_opening pre x tl Hpre Hx)
      as (k & [Hk1 _] & -> & _).
    destruct k as [|k]; [lia|]. simpl. split; [discriminate|].
    intros [_ H]%Forall_app. apply Forall_cons in H as [H _]. congruence.
Qed.

End PolicyBlock.

Import Policy.

(** X9. [extract_policy] raises "Could not find JSON policy
    configuration" exactly when the marker is there and no line after it
    starts, once stripped, with an opening brace. *)
Theorem policy_block_not_found_iff (loads : str -> option pyval)
  (lines : list str) :
  extract_policy loads lines
  = Raise (ValueError (lit "Could not find JSON policy configuration")) <->
  exists config_start_idx,
    find_marker (lit "STEP-SHOW-CONFIG") lines 0 = Some config_start_idx /\
    Forall (fun l => opens_block l = false) (drop config_start_idx lines).
Proof.
  unfold extract_policy.
  destruct (find_marker _ lines 0) as [start|].
  - pose proof (policy_json_str_None lines start) as Hnone.
    destruct (Policy.json_str lines start) as [s|].
    + split.
      * destruct (loads s); [discriminate|]. intros H. discriminate H.
      * intros (i & [= <-] & H). apply Hnone in H. discriminate.
    + split; [|reflexivity]. intros _. exists start. split; [reflexivity|].
      now apply Hnone.
  - split; [intros H; discriminate H|]. now intros (i & H & _).
Qed.

(** X10. The text [extract_policy] hands to the parser starts at the
    first line after the marker that, stripped, starts with an opening
    brace; it is made of that line and the following ones, each stripped,
    joined by one space, up to the first line at which no brace is left
    open and which ends with a closing brace, or up to the end of the log
    when there is no such line.  So it starts with a brace. *)
Theorem policy_block_shape (lines : list str) (config_start_idx : nat)
  (s : str) :
  Policy.json_str lines config_start_idx = Some s ->
  exists pre x tl k,
    drop config_start_idx lines = pre ++ x :: tl /\
    Forall (fun l => opens_block l = false) pre /\
    opens_block x = true /\
    (1 <= k <= S (length tl))%nat /\
    s = join (lit " ") (map strip (take k (x :: tl))) /\
    startswith s [LBRACE] = true /\
    (k = S (length tl) \/
     exists l, (x :: tl) !! (k - 1)%nat = Some l /\
       closes_block (balance (map strip (take k (x :: tl)))) l = true) /\
    forall j l,
      (1 <= j < k)%nat -> (x :: tl) !! (j - 1)%nat = Some l ->
      closes_block (balance (map strip (take j (x :: tl)))) l = false.
Proof.
  intros Hs.
  destruct (first_opening (drop config_start_idx lines))
    as [Hnone|(pre & x & tl & Heq & Hpre & Hx)].
  { apply policy_json_str_None in Hnone. congruence. }
  destruct (collect_from_opening pre x tl Hpre Hx)
    as (k & Hk & Hlines & Hend & Hmin).
  unfold Policy.json_str in Hs. fold init_collect in Hs.
  rewrite Heq, Hlines in Hs.
  destruct k as [|k]; [lia|]. simpl in Hs. injection Hs as <-.
  exists pre, x, tl, (S k). repeat split; auto; try lia.
  apply (startswith_join (lit " ") (strip x) (map strip (take k tl))).
  exact Hx.
Qed.

(** ** What the correlator returns *)

Section Digest.

Import Correlator.

Implicit Types (s sep cur d : str).

Lemma split_from_nonempty sep skip cur s : split_from sep skip cur s <> [].
Proof.
  revert skip cur. induction s as [|c s IH]; intros skip cur;
    cbn [split_from]; [discriminate|].
  destruct skip; [|apply IH].
  destruct (startswith (c :: s) sep); [discriminate|apply IH].
Qed.

Lemma last_cons_nonempty (x : str) (l : list str) :
  l <> [] -> List.last (x :: l) [] = List.last l [].
Proof. now destruct l. Qed.

(** The last piece of a split is the piece being read followed by the
    rest of the text, or an end of the text. *)
Lemma split_from_last sep skip cur s :
  List.last (split_from sep skip cur s) [] = rev cur ++ drop skip s \/
  exists k, s = k ++ List.last (split_from sep skip cur s) [].
Proof.
  revert skip cur. induction s as [|c s IH]; intros skip cur.
  - left. cbn [split_from List.last]. now rewrite drop_nil, app_nil_r.
  - cbn [split_from]. destruct skip as [|skip].
    + destruct (startswith (c :: s) sep).
      * rewrite last_cons_nonempty by apply split_from_nonempty.
        right. destruct (IH (length sep - 1)%nat []) as [->|[k Hk]].
        -- simpl. exists (c :: take (length sep - 1) s).
           simpl. now rewrite take_drop.
        -- exists (c :: k). simpl. now rewrite <-Hk.
      * destruct (IH 0%nat (c :: cur)) as [->|[k Hk]].
        -- left. simpl. now rewrite <-app_assoc.
        -- right. exists (c :: k). simpl. now rewrite <-Hk.
    + destruct (IH skip cur) as [->|[k Hk]]; [now left|].
      right. exists (c :: k). simpl. now rewrite <-Hk.
Qed.

Lemma last_piece_suffix s sep : exists k, s = k ++ last_piece (split s sep).
Proof.
  unfold last_piece, split.
  destruct (split_from_last sep 0 [] s) as [->|H]; [|exact H].
  now exists [].
Qed.

Lemma startswith_self_app d t : startswith (d ++ t) d = true.
Proof.
  induction d as [|a d IH]; simpl; [now destruct t|].
  rewrite N.eqb_refl. exact IH.
Qed.

Lemma contains_suffix k d : contains (k ++ d) d = true.
Proof.
  induction k as [|c k IH].
  - simpl. rewrite <-(app_nil_r d) at 1.
    destruct d; simpl; [reflexivity|].
    rewrite N.eqb_refl. simpl.
    rewrite (startswith_self_app d []). reflexivity.
  - cbn [app contains]. rewrite IH. apply orb_true_r.
Qed.

Lemma digest_of_None ref : contains ref SHA = false -> digest_of ref = None.
Proof. unfold digest_of. now intros ->. Qed.

End Digest.

Import Correlator.

(** X11. A component the correlator returns is one of the list, its image
    is not empty, and this image is the reference itself or holds the
    digest of the reference (its text after the last [@sha256:], not
    empty) somewhere.  For a reference without [@sha256:] only a
    component with exactly this image is returned. *)
Theorem matched_component_shares_the_digest (violation_image_ref : str)
  (components : list Component) (c : Component) :
  match_component_to_violation violation_image_ref components = Some c ->
  exists img,
    c ∈ components /\ containerImage c = Some img /\ img <> [] /\
    (img = violation_image_ref \/
     exists d,
       digest_of violation_image_ref = Some d /\ d <> [] /\
       contains img d = true) /\
    (contains violation_image_ref SHA = false -> img = violation_image_ref).
Proof.
  unfold match_component_to_violation.
  destruct (is_empty violation_image_ref); [discriminate|].
  destruct components as [|x comps]; [discriminate|].
  intros (pre & post & -> & (img & Himg & Hne & Hrule) & _)%match_loop_Some.
  exists img. split; [|split; [exact Himg|split; [exact Hne|]]].
  { apply elem_of_app. right. apply elem_of_cons. now left. }
  split.
  - destruct Hrule as [H|[(d & Hd & Hdne & _ & Hlast)|(d & Hd & Hdne & _ & Hc)]].
    + now left.
    + right. exists d. repeat split; auto.
      destruct (last_piece_suffix img SHA) as [k Hk].
      rewrite Hlast in Hk. rewrite Hk. apply contains_suffix.
    + right. exists d. auto.
  - intros Hno%digest_of_None.
    destruct Hrule as [H|[(d & Hd & _)|(d & Hd & _)]]; [exact H| |];
      congruence.
Qed.

(** ** The text output *)

Section TextOutput.

Import Format.

Lemma field_lines_unset_empty name o :
  field_lines name (unset_empty o) = field_lines name o.
Proof. unfold field_lines. now destruct o as [[|c s]|]. Qed.

End TextOutput.

Import Format.

(** X12. The text output does not tell a field that holds the empty
    string from a field that is unset: [format_violation] gives both the
    same text, with no line for the field. *)
Theorem format_ignores_empty_fields (v : Violation) (index : nat) :
  format_violation (without_empty_fields v) index
  = format_violation v index.
Proof.
  unfold format_violation, without_empty_fields. simpl.
  now rewrite !field_lines_unset_empty.
Qed.

(** ** The groups of violations *)

Section Groups.

Import Grouping.

Implicit Types (g grouped : groups) (vs : list Violation) (r : str).

(** What a dictionary holds for [r]: nothing when the key is absent. *)
Lemma group_of_None r g : group_of r g = None <-> r ∉ rules_of g.
Proof.
  unfold rules_of. induction g as [|[k ws] g IH]; simpl.
  - split; [intros _ H; now apply elem_of_nil in H|reflexivity].
  - rewrite not_elem_of_cons. destruct (decide (k = r)) as [->|Hk].
    + rewrite bool_decide_eq_true_2 by reflexivity.
      split; [discriminate|]. now intros [? _].
    + rewrite bool_decide_eq_false_2 by exact Hk. rewrite IH.
      split; [auto|tauto].
Qed.

Lemma rules_of_add r v g :
  rules_of (add r v g)
  = if bool_decide (r ∈ rules_of g) then rules_of g else rules_of g ++ [r].
Proof.
  unfold rules_of. induction g as [|[k ws] g IH]; [reflexivity|].
  cbn [add map fst]. destruct (decide (k = r)) as [->|Hk].
  - rewrite (bool_decide_eq_true_2 (r = r)) by reflexivity.
    rewrite bool_decide_eq_true_2; [reflexivity|].
    apply elem_of_cons. now left.
  - rewrite (bool_decide_eq_false_2 (k = r)) by exact Hk.
    cbn [map fst]. rewrite IH.
    destruct (decide (r ∈ map fst g)) as [Hin|Hin].
    + rewrite (bool_decide_eq_true_2 _ Hin).
      rewrite bool_decide_eq_true_2; [reflexivity|].
      apply elem_of_cons. now right.
    + rewrite (bool_decide_eq_false_2 _ Hin).
      rewrite bool_decide_eq_false_2; [reflexivity|].
      rewrite not_elem_of_cons. split; [congruence|exact Hin].
Qed.

Lemma group_of_add r r' v g :
  group_of r' (add r v g)
  = if bool_decide (r = r') then Some (default [] (group_of r g) ++ [v])
    else group_of r' g.
Proof.
  induction g as [|[k ws] g IH]; cbn [add group_of].
  - destruct (decide (r = r')) as [->|Hr].
    + now rewrite !bool_decide_eq_true_2 by reflexivity.
    + now rewrite !bool_decide_eq_false_2 by exact Hr.
  - destruct (decide (k = r)) as [->|Hk].
    + rewrite (bool_decide_eq_true_2 (r = r)) by reflexivity.
      cbn [group_of default]. now destruct (bool_decide (r = r')).
    + rewrite (bool_decide_eq_false_2 (k = r)) by exact Hk.
      cbn [group_of]. rewrite IH.
      destruct (decide (r = r')) as [<-|Hr].
      * rewrite (bool_decide_eq_false_2 (k = r)) by exact Hk.
        now rewrite bool_decide_eq_true_2 by reflexivity.
      * rewrite (bool_decide_eq_false_2 (r = r')) by exact Hr.
        reflexivity.
Qed.

Lemma total_add r v g : total (add r v g) = S (total g).
Proof.
  induction g as [|[k ws] g IH]; simpl; [reflexivity|].
  destruct (bool_decide (k = r)); simpl.
  - rewrite length_app. simpl. lia.
  - rewrite IH. lia.
Qed.

Lemma rules_of_loop vs g :
  rules_of (group_loop vs g)
  = ImageRefs.dedup_onto (rules_of g) (map rule vs).
Proof.
  revert g. induction vs as [|v vs IH]; intros g; simpl; [reflexivity|].
  now rewrite IH, rules_of_add.
Qed.

Lemma group_of_loop r vs g :
  default [] (group_of r (group_loop vs g))
  = default [] (group_of r g) ++ filter (fun v => rule v = r) vs.
Proof.
  revert g. induction vs as [|v vs IH]; intros g; simpl.
  - now rewrite app_nil_r.
  - rewrite IH, group_of_add, filter_cons.
    destruct (decide (rule v = r)) as [Hr|Hr].
    + rewrite bool_decide_eq_true_2 by exact Hr. simpl.
      now rewrite Hr, <-app_assoc.
    + now rewrite bool_decide_eq_false_2 by exact Hr.
Qed.

Lemma total_loop vs g : total (group_loop vs g) = (total g + length vs)%nat.
Proof.
  revert g. induction vs as [|v vs IH]; intros g; simpl; [lia|].
  rewrite IH, total_add. lia.
Qed.

Lemma filled_add r v g : filled g -> filled (add r v g).
Proof.
  unfold filled. induction 1 as [|[k ws] g Hk Hg IH]; simpl.
  - repeat constructor. discriminate.
  - destruct (bool_decide (k = r)); constructor; auto.
    simpl. now destruct ws.
Qed.

Lemma filled_loop vs g : filled g -> filled (group_loop vs g).
Proof.
  revert g. induction vs as [|v vs IH]; intros g Hg; simpl; [exact Hg|].
  now apply IH, filled_add.
Qed.

Lemma filled_group_of r g ws : filled g -> group_of r g = Some ws -> ws <> [].
Proof.
  unfold filled. induction 1 as [|[k us] g Hk _ IH]; simpl; [discriminate|].
  destruct (bool_decide (k = r)); [now intros [= <-]|exact IH].
Qed.

End Groups.

Import Grouping.

(** X13. The group of a rule holds the violations with that rule, all
    of them and in the order of the list; a rule without a violation has
    no group, so no group is empty. *)
Theorem group_holds_the_violations_of_its_rule (violations : list Violation)
  (r : str) :
  group_of r (group_violations_by_rule violations)
  = match filter (fun v => rule v = r) violations with
    | [] => None
    | ws => Some ws
    end.
Proof.
  unfold group_violations_by_rule.
  pose proof (group_of_loop r violations []) as Hdef. simpl in Hdef.
  pose proof (filled_group_of r (group_loop violations [])) as Hfilled.
  destruct (group_of r (group_loop violations [])) as [ws|] eqn:E;
    simpl in Hdef.
  - rewrite <-Hdef. destruct ws; [|reflexivity].
    exfalso. eapply Hfilled; eauto. apply filled_loop. constructor.
  - now rewrite <-Hdef.
Qed.

(** X14. The rules of the groups are the rules of the violations, each
    once, in the order in which they first appear in the list: of two
    rules of the dictionary, the earlier one appears in the list before
    every violation of the later one. *)
Theorem groups_in_first_appearance_order (violations : list Violation) :
  let rules := rules_of (group_violations_by_rule violations) in
  NoDup rules /\
  (forall r, r ∈ rules <-> exists v, v ∈ violations /\ rule v = r) /\
  (forall i j r r',
     rules !! i = Some r -> rules !! j = Some r' -> (i < j)%nat ->
     exists n v,
       violations !! n = Some v /\ rule v = r /\
       forall m v', violations !! m = Some v' -> rule v' = r' ->
                    (n < m)%nat).
Proof.
  unfold group_violations_by_rule. rewrite rules_of_loop. simpl.
  split; [apply dedup_onto_NoDup, NoDup_nil_2|]. split.
  - intros r. rewrite dedup_onto_elem, elem_of_nil, list_elem_of_fmap.
    split.
    + intros [[]|(v & -> & Hv)]. eauto.
    + intros (v & Hv & <-). right. eauto.
  - intros i j r r' Hi Hj Hij.
    destruct (dedup_onto_order [] (map rule violations) i j r r')
      as [Hx|(n & Hn & Hfirst)]; auto using NoDup_nil_2; [simpl; lia| |].
    { now apply elem_of_nil in Hx. }
    rewrite list_lookup_fmap in Hn.
    destruct (violations !! n) as [v|] eqn:Hv; [|discriminate].
    injection Hn as Hn. exists n, v. repeat split; auto.
    intros m v' Hm Hr. apply Hfirst.
    now rewrite list_lookup_fmap, Hm, <-Hr.
Qed.

(** X15. Grouping loses and adds nothing: the sizes of the groups add up
    to the number of violations. *)
Theorem groups_cover_every_violation (violations : list Violation) :
  total (group_violations_by_rule violations) = length violations.
Proof. unfold group_violations_by_rule. now rewrite total_loop. Qed.

(** ** The texts of the prompt *)

Section Truncation.

(** Cutting a text that has been cut at the same length before replaces
    the first marker by the second one. *)
Lemma cut_twice (n : nat) (m1 m2 s : str) :
  m1 <> [] ->
  (let once := if (n <? length s)%nat then take n s ++ m1 else s in
   if (n <? length once)%nat then take n once ++ m2 else once)
  = if (n <? length s)%nat then take n s ++ m2 else s.
Proof.
  intros Hm1. cbv zeta. destruct (n <? length s)%nat eqn:E; [|now rewrite E].
  apply Nat.ltb_lt in E.
  assert (Hlen : length (take n s) = n) by (rewrite length_take; lia).
  assert (Hlong : (n <? length (take n s ++ m1))%nat = true).
  { apply Nat.ltb_lt. rewrite length_app, Hlen.
    destruct m1; [done|simpl; lia]. }
  rewrite Hlong. now rewrite take_app_length' by (symmetry; exact Hlen).
Qed.

(** The same with the replacement of an empty text in between, as the
    prompt is built. *)
Lemma cut_after_fetch (n : nat) (m1 m2 dflt s : str) :
  m1 <> [] -> (n <? length dflt)%nat = false ->
  (let fetched := Some (if (n <? length s)%nat then take n s ++ m1 else s) in
   let crd := if truthy fetched then default [] fetched else dflt in
   if (n <? length crd)%nat then take n crd ++ m2 else crd)
  = if is_empty s then dflt
    else if (n <? length s)%nat then take n s ++ m2 else s.
Proof.
  intros Hm1 Hdflt. cbv zeta. destruct s as [|c t].
  - simpl. now rewrite Hdflt.
  - assert (Htruthy : truthy (Some (if (n <? length (c :: t))%nat
                                    then take n (c :: t) ++ m1
                                    else c :: t)) = true).
    { destruct (n <? length (c :: t))%nat; [|reflexivity].
      destruct (take n (c :: t)); [now destruct m1|reflexivity]. }
    rewrite Htruthy. cbn [default is_empty].
    now apply cut_twice.
Qed.

End Truncation.

Import Prompt.

(** X16. The schema text that reaches the prompt, for the text [schema]
    of the response: "CRD schema not available" when the response is
    empty, the response when it has at most 8000 characters, and its
    first 8000 characters followed by "\n... (truncated)" otherwise.  The
    marker [fetch_crd_schema] appends, with its pointer to the URL, is
    always cut off again. *)
Theorem crd_schema_is_cut_once (schema : str) :
  crd_schema_for_prompt (Some (crd_schema_of_response schema))
  = if is_empty schema then lit "CRD schema not available"
    else if (8000 <? length schema)%nat
         then take 8000 schema ++ [NL] ++ lit "... (truncated)"
         else schema.
Proof.
  apply (cut_after_fetch 8000
           ([NL] ++ lit "... (truncated - see full schema at the URL)")
           ([NL] ++ lit "... (truncated)")
           (lit "CRD schema not available") schema).
  - discriminate.
  - vm_compute. reflexivity.
Qed.

Section PackageSplit.

Implicit Types (s cur : str).

Lemma DOT_char : DOT = [46].
Proof. reflexivity. Qed.

Lemma contains_DOT_cons c s :
  contains (c :: s) DOT = (c =? 46) || contains s DOT.
Proof.
  change (contains (c :: s) DOT)
    with (startswith (c :: s) DOT || contains s DOT).
  f_equal. rewrite DOT_char.
  change (startswith (c :: s) [46]) with ((c =? 46) && startswith s []).
  now rewrite startswith_nil, andb_true_r.
Qed.

Lemma contains_DOT_app a b :
  contains (a ++ b) DOT = contains a DOT || contains b DOT.
Proof.
  induction a as [|c a IH].
  - simpl. now destruct b.
  - cbn [app]. rewrite !contains_DOT_cons, IH. now rewrite orb_assoc.
Qed.

Lemma contains_DOT_rev s : contains (rev s) DOT = contains s DOT.
Proof.
  induction s as [|c s IH]; [reflexivity|].
  simpl rev. rewrite contains_DOT_app, IH, !contains_DOT_cons.
  simpl. rewrite orb_false_r. apply orb_comm.
Qed.

(** One cut at the first dot of a text that has one. *)
Lemma split_max_first_dot cur s :
  contains s DOT = true -> contains cur DOT = false ->
  exists package rule_name,
    split_max DOT 1 0 cur s = [package; rule_name] /\
    contains package DOT = false /\
    rev cur ++ s = package ++ DOT ++ rule_name.
Proof.
  revert cur. induction s as [|c s IH]; intros cur Hs Hcur; [discriminate|].
  rewrite contains_DOT_cons in Hs. cbn [split_max].
  destruct (c =? 46) eqn:Hc.
  - apply N.eqb_eq in Hc as ->.
    exists (rev cur), s. repeat split.
    + rewrite DOT_char.
      change (startswith (46 :: s) [46]) with ((46 =? 46) && startswith s []).
      rewrite N.eqb_refl, startswith_nil. simpl. now destruct s.
    + now rewrite contains_DOT_rev.
  - simpl in Hs.
    change (startswith (c :: s) DOT) with ((c =? 46) && startswith s []).
    rewrite Hc. cbn [andb].
    destruct (IH (c :: cur) Hs) as (p & r & Heq & Hp & Hall).
    { now rewrite contains_DOT_cons, Hc, Hcur. }
    exists p, r. repeat split; auto.
    rewrite <-Hall. simpl. now rewrite <-app_assoc.
Qed.

End PackageSplit.

(** X17. Splitting a rule into its package and its name never fails.
    For a rule with a dot the package is the text before the first dot
    (it holds none) and the name is all that follows it, so that
    [package + "." + name] is the rule again; a rule without a dot is its
    own package, with an empty name. *)
Theorem package_and_rule_round_trip (rule : str) :
  exists package rule_name,
    package_and_rule rule = Some (package, rule_name) /\
    contains package DOT = false /\
    (contains rule DOT = true -> rule = package ++ DOT ++ rule_name) /\
    (contains rule DOT = false -> package = rule /\ rule_name = []).
Proof.
  unfold package_and_rule. destruct (contains rule DOT) eqn:E.
  - destruct (split_max_first_dot [] rule E eq_refl)
      as (p & r & -> & Hp & Hall).
    exists p, r. repeat split; auto; discriminate.
  - exists rule, []. repeat split; auto. discriminate.
Qed.

Section Solutions.

Implicit Types (vs : list Violation) (sols : list str).

Lemma collect_solutions_spec vs sols :
  collect_solutions vs sols
  = if bool_decide (Exists (fun v => solution v = None) vs)
    then AttributeError
    else Done (ImageRefs.dedup_onto sols (stripped_solutions vs)).
Proof.
  revert sols. induction vs as [|v vs IH]; intros sols.
  - reflexivity.
  - cbn [collect_solutions]. destruct (solution v) as [s|] eqn:Hs.
    + cbv zeta. rewrite IH.
      assert (Hex : Exists (fun v => solution v = None) (v :: vs)
                    <-> Exists (fun v => solution v = None) vs).
      { rewrite Exists_cons. rewrite Hs. split; [|auto].
        now intros [?|?]. }
      rewrite (bool_decide_ext _ _ Hex).
      destruct (bool_decide _); [reflexivity|]. f_equal.
      unfold stripped_solutions. cbn [omap list_omap]. rewrite Hs.
      cbn [fmap option_fmap option_map]. rewrite filter_cons.
      destruct (strip s) as [|c t] eqn:Hstrip.
      * now rewrite decide_False by (intros H; now apply H).
      * rewrite decide_True by discriminate. cbn [negb is_empty andb].
        cbn [ImageRefs.dedup_onto].
        destruct (decide ((c :: t) ∈ sols)) as [Hin|Hin].
        -- rewrite bool_decide_eq_false_2 by (intros H; now apply H).
           now rewrite bool_decide_eq_true_2 by exact Hin.
        -- rewrite (bool_decide_eq_true_2 _ Hin).
           now rewrite (bool_decide_eq_false_2 _ Hin).
    + rewrite bool_decide_eq_true_2; [reflexivity|].
      now apply Exists_cons_hd.
Qed.

End Solutions.

(** X18. Collecting the solutions of a group of violations ends with
    an [AttributeError] exactly when one of the violations has no
    solution ([None], as the extractor writes it for a block without a
    [Solution:] line).  Otherwise the solutions collected are the
    stripped solutions that are not empty, each once. *)
Theorem solutions_need_a_solution_in_every_violation
  (rule_violations : list Violation) :
  (solution_text rule_violations = AttributeError <->
   exists v, v ∈ rule_violations /\ solution v = None) /\
  (forall solutions,
     collect_solutions rule_violations [] = Done solutions ->
     NoDup solutions /\
     forall x,
       x ∈ solutions <->
       x <> [] /\
       exists v s, v ∈ rule_violations /\ solution v = Some s /\ x = strip s).
Proof.
  unfold solution_text. rewrite collect_solutions_spec.
  case_bool_decide as Hex; rewrite Exists_exists in Hex.
  - split; [tauto|discriminate].
  - split.
    + split; [|tauto].
      now destruct (ImageRefs.dedup_onto [] (stripped_solutions rule_violations)).
    + intros sols [= <-]. split; [apply dedup_onto_NoDup, NoDup_nil_2|].
      intros x. rewrite dedup_onto_elem, elem_of_nil.
      unfold stripped_solutions.
      rewrite list_elem_of_filter, list_elem_of_omap. split.
      * intros [[]|[Hx (v & Hv & Hs)]]. split; [exact Hx|].
        destruct (solution v) as [s|] eqn:E; [|discriminate].
        injection Hs as <-. eauto.
      * intros [Hx (v & s & Hv & Hs & ->)]. right. split; [exact Hx|].
        exists v. split; [exact Hv|]. now rewrite Hs.
Qed.

(** ** The components through the pipe *)

Import Pipeline.

(** X19. When the extractor returns a list of objects, auto_resolve.py
    gets this very list through the script: the script prints the only
    component without its list, or the whole list, and
    [isinstance(data, list)] tells the two apart again, provided the
    printed text reads back as the value printed. *)
Theorem components_survive_the_pipe (loads : str -> option pyval)
  (dumps : pyval -> str) (lines : list str) (components : list pyval) :
  Components.extract_components loads lines = Ok (PList components) ->
  Forall (fun c => exists d, c = PDict d) components ->
  (forall printed,
     json_output (PList components) = Ok printed ->
     loads (dumps printed ++ [NL]) = Some printed) ->
  resolve_components loads dumps lines = components.
Proof.
  intros Hext Hobj Hround. unfold resolve_components, script_stdout.
  rewrite Hext.
  destruct components as [|c [|c' cs]]; simpl in *.
  - now rewrite (Hround _ eq_refl).
  - rewrite (Hround _ eq_refl).
    apply Forall_cons in Hobj as [[d ->] _]. reflexivity.
  - now rewrite (Hround _ eq_refl).
Qed.

(** ** The further properties on the example logs *)

Import Fixtures Scenarios.

(** X1 on the end-to-end scenario: the block ends at the empty line. *)
Lemma cve_block_ends_at_the_empty_line :
  parse_violation_block cve_log 1 = (Some cve_violation, 4%nat) /\
  (1 < 4 <= length cve_log)%nat.
Proof.
  split; [vm_compute; reflexivity|].
  apply (block_ends_at_first_empty_line cve_log 1 cve_violation 4).
  vm_compute. reflexivity.
Defined.

(** X2 on the end-to-end scenario. *)
Lemma cve_log_violation_follows_its_start_line :
  exists starts,
    StronglySorted lt starts /\
    Forall2 (fun i v =>
               exists l g,
                 cve_log !! i = Some l /\
                 violation_match (strip l) = Some g /\
                 rule v = strip g /\ rule v <> []) starts [cve_violation].
Proof.
  apply (violations_follow_start_lines cve_log [cve_violation]).
  vm_compute. reflexivity.
Defined.

(** X3 on two start lines in a row. *)
Lemma second_start_is_the_reason_of_the_first :
  exists v n,
    parse_violation_block ([] ++ first_start :: second_start :: adjacent_rest)
      (length ([] : list str))
    = (Some v, n) /\
    (length ([] : list str) + 2 <= n)%nat /\
    (Forall (fun x => classify x <> Some FReason) (block_lines adjacent_rest) ->
     reason v = Some (strip second_start)).
Proof.
  apply (adjacent_start_line_is_swallowed [] adjacent_rest
           first_start second_start); vm_compute; eauto.
Defined.

(** X4 on two blocks with an empty line in between. *)
Lemma two_blocks_split_at_the_empty_line :
  exists va vb,
    extract_violations block_one = Some va /\
    extract_violations block_two = Some vb /\
    extract_violations (block_one ++ line "" :: block_two) = Some (va ++ vb).
Proof.
  apply (violations_split_at_empty_line block_one block_two (line "")).
  vm_compute. reflexivity.
Defined.

(** X5 on a section closed by a [Results:] line. *)
Lemma nothing_read_after_the_results_line :
  ImageRefs.extract_image_refs
    (before_marker ++ line "STEP-VALIDATE"
       :: section_lines ++ line "Results:" :: after_results)
  = ImageRefs.extract_image_refs
      (before_marker ++ line "STEP-VALIDATE"
         :: section_lines ++ line "Results:" :: []).
Proof.
  apply (nothing_read_after_section_end before_marker section_lines
           after_results [] (line "STEP-VALIDATE") (line "Results:")).
  - repeat constructor; vm_compute; discriminate.
  - vm_compute. reflexivity.
  - left. vm_compute. reflexivity.
Defined.

(** X6 on the section that lists an image twice. *)
Lemma validate_log_refs_come_from_label_lines :
  exists l,
    l ∈ validate_log /\
    startswith (strip l) (lit "ImageRef:") = true /\
    lit "quay.io/a@sha256:1"
    = strip (replace (strip l) (lit "ImageRef:") []) /\
    lit "quay.io/a@sha256:1" <> [] /\
    strip (lit "quay.io/a@sha256:1") = lit "quay.io/a@sha256:1".
Proof.
  apply (image_refs_come_from_label_lines validate_log validate_refs).
  - vm_compute. reflexivity.
  - apply elem_of_cons. left. reflexivity.
Defined.

(** X8 with the parser of the one-line block. *)
Lemma one_component_log_returns_or_raises_value_error :
  (exists components,
     Components.extract_components one_text_loads one_component_log
     = Ok components) \/
  (exists msg,
     Components.extract_components one_text_loads one_component_log
     = Raise (ValueError msg)).
Proof.
  apply (components_raise_value_error_only one_text_loads one_component_log).
  intros s data. unfold one_text_loads.
  destruct (bool_decide (s = one_component_text)); [|discriminate].
  intros [= <-]. eauto.
Defined.

(** X10 on the policy log with a brace in a string. *)
Lemma policy_log_block_shape :
  exists pre x tl k,
    drop 1 policy_log = pre ++ x :: tl /\
    Forall (fun l => opens_block l = false) pre /\
    opens_block x = true /\
    (1 <= k <= S (length tl))%nat /\
    join (lit " ") [strip policy_open; strip policy_note; strip policy_sources]
    = join (lit " ") (map strip (take k (x :: tl))) /\
    startswith
      (join (lit " ")
         [strip policy_open; strip policy_note; strip policy_sources])
      [LBRACE] = true /\
    (k = S (length tl) \/
     exists l, (x :: tl) !! (k - 1)%nat = Some l /\
       closes_block (balance (map strip (take k (x :: tl)))) l = true) /\
    forall j l,
      (1 <= j < k)%nat -> (x :: tl) !! (j - 1)%nat = Some l ->
      closes_block (balance (map strip (take j (x :: tl)))) l = false.
Proof.
  apply (policy_block_shape policy_log 1).
  vm_compute. reflexivity.
Defined.

(** X11 on the precedence scenario, the digest match listed first. *)
Lemma mirror_component_shares_the_digest :
  exists img,
    mirror_component ∈ [mirror_component; exact_component] /\
    Correlator.containerImage mirror_component = Some img /\ img <> [] /\
    (img = ref_AAA \/
     exists d,
       Correlator.digest_of ref_AAA = Some d /\ d <> [] /\
       contains img d = true) /\
    (contains ref_AAA Correlator.SHA = false -> img = ref_AAA).
Proof.
  apply (matched_component_shares_the_digest ref_AAA
           [mirror_component; exact_component] mirror_component).
  vm_compute. reflexivity.
Defined.

(** X19 on the one-line block, with the toy printer and parser. *)
Lemma one_component_survives_the_pipe :
  Pipeline.resolve_components pipe_loads pipe_dumps one_component_log
  = [web_component].
Proof.
  apply (components_survive_the_pipe pipe_loads pipe_dumps
           one_component_log [web_component]).
  - vm_compute. reflexivity.
  - repeat constructor. eexists. reflexivity.
  - intros printed [= <-]. vm_compute. reflexivity.
Defined.
